(** * subly: naming conventions and subscription lifecycle

    A shallow embedding of [subly.go] (package [subly]): the helper
    [polishKindName], the method enumeration [getMessages], the two
    registration helpers [sub] and [qsub], and the two entry points
    [Subscribe] and [SubscribeFunc] of [Subscriber].

    Go strings are byte sequences: they are lists of [ascii] (8-bit)
    characters here.  Go's [int] is [Z]; no operation of the package can
    overflow (indices and lengths only).  A run-time panic (a slice out
    of range, [Interface] on the zero [reflect.Value]) is [None] in the
    option monad, so that "never fails" is a theorem and not a
    convention.  The Unicode tables of the Go library are not part of the
    package: what [strings.ToLower] does to a string that is not ASCII is
    a parameter of the development. *)

From Stdlib Require Import ZArith Ascii String.
From stdpp Require Import base option list gmap strings.

Local Open Scope Z_scope.

(** Case analysis on every comparison of integers in the goal. *)
Ltac Z_cases :=
  repeat (match goal with
          | |- context [Z.ltb ?a ?b] => destruct (Z.ltb_spec a b)
          | |- context [Z.leb ?a ?b] => destruct (Z.leb_spec a b)
          end; simpl).

(** ** Strings of the Go runtime *)

Abbreviation gostring := (list ascii).

(** A literal of the source. *)
Definition go (s : string) : gostring := list_ascii_of_string s.

(** [len(s)] *)
Definition len {A} (l : list A) : Z := Z.of_nat (length l).

(** [s[lo:]]; Go panics unless [0 <= lo <= len(s)]. *)
Definition slice_from {A} (l : list A) (lo : Z) : option (list A) :=
  if (0 <=? lo) && (lo <=? len l) then Some (drop (Z.to_nat lo) l) else None.

(** [s[:hi]]; Go panics unless [0 <= hi <= len(s)]. *)
Definition slice_to {A} (l : list A) (hi : Z) : option (list A) :=
  if (0 <=? hi) && (hi <=? len l) then Some (take (Z.to_nat hi) l) else None.

Module strings.

(** [strings.LastIndex(s, sep)] for a separator of one byte, which is
    [strings.LastIndexByte]: the index of the last occurrence, or -1. *)
Fixpoint LastIndexByte (s : gostring) (c : ascii) : Z :=
  match s with
  | [] => -1
  | b :: s' =>
      let r := LastIndexByte s' c in
      if 0 <=? r then r + 1
      else if Ascii.eqb b c then 0 else -1
  end.

(** [strings.NewReplacer(old1, new1, ...)] where every [old] is one
    byte: Go builds a table from byte to replacement, in which the
    first pair for a byte wins. *)
Definition Replacer := list (ascii * gostring).

Fixpoint replacement (rp : Replacer) (b : ascii) : option gostring :=
  match rp with
  | [] => None
  | (old, new) :: rp' => if Ascii.eqb b old then Some new else replacement rp' b
  end.

(** [rp.Replace(s)] *)
Fixpoint Replace (rp : Replacer) (s : gostring) : gostring :=
  match s with
  | [] => []
  | b :: s' =>
      match replacement rp b with
      | Some new => new ++ Replace rp s'
      | None => b :: Replace rp s'
      end
  end.

(** [strings.Split(s, sep)] for a separator of one byte.  The result is
    never empty: the empty string splits into one empty part. *)
Fixpoint Split (s : gostring) (sep : ascii) : list gostring :=
  match s with
  | [] => [[]]
  | b :: s' =>
      if Ascii.eqb b sep then [] :: Split s' sep
      else match Split s' sep with
           | p :: ps => (b :: p) :: ps
           | [] => [[b]]
           end
  end.

(** [strings.Join(parts, sep)] *)
Fixpoint Join (parts : list gostring) (sep : gostring) : gostring :=
  match parts with
  | [] => []
  | [p] => p
  | p :: ps => p ++ sep ++ Join ps sep
  end.

(** [strings.HasSuffix(s, suffix)] *)
Definition HasSuffix (s suffix : gostring) : bool :=
  (length suffix <=? length s)%nat
  && bool_decide (drop (length s - length suffix) s = suffix).

(** [strings.TrimSuffix(s, suffix)] *)
Definition TrimSuffix (s suffix : gostring) : gostring :=
  if HasSuffix s suffix then take (length s - length suffix) s else s.

(** One byte of [strings.ToLower] on its ASCII path. *)
Definition lowerByte (b : ascii) : ascii :=
  let n := nat_of_ascii b in
  if (65 <=? n)%nat && (n <=? 90)%nat then ascii_of_nat (n + 32) else b.

(** A string of ASCII bytes: every byte is below [utf8.RuneSelf]. *)
Definition isASCII (s : gostring) : bool :=
  forallb (λ b, (nat_of_ascii b <? 128)%nat) s.

(** [strings.ToLower(s)].  When every byte of [s] is ASCII, Go maps the
    bytes 'A'..'Z' to 'a'..'z' and keeps the others.  Otherwise the
    result is [strings.Map(unicode.ToLower, s)], which is decided by the
    Unicode tables of the Go library: these are not part of the
    repository, and that function is the parameter [unicodeLower]. *)
Definition ToLower (unicodeLower : gostring → gostring) (s : gostring) : gostring :=
  if isASCII s then map lowerByte s else unicodeLower s.

End strings.

(** What the properties of lower case need of Go's Unicode tables: a
    string that is not empty is not lower-cased to the empty string
    ([strings.Map] drops no rune under [unicode.ToLower]), and a
    lower-cased string is lower-cased to itself. *)
Definition lowering (unicodeLower : gostring → gostring) : Prop :=
  (∀ s, s ≠ [] → unicodeLower s ≠ [])
  ∧ (∀ s, strings.ToLower unicodeLower (unicodeLower s) = unicodeLower s).

(** A stand-in for the Unicode path in the examples, whose names are
    ASCII and never reach it. *)
Definition byteLower : gostring → gostring := map strings.lowerByte.

(** ** [polishKindName] *)

Definition polishKindName (name : gostring) (take drop : Z) : option gostring :=
  let ix := strings.LastIndexByte name "/" in
  name ← (if (0 <? ix) && (ix + 1 <? len name)
          then slice_from name (ix + 1) else Some name);
  let rp : strings.Replacer := [("("%char, go ""); (")"%char, go ""); ("*"%char, go "")] in
  let name := strings.Replace rp name in
  let parts := strings.Split name "." in
  let take := if take <? 0 then 0 else take in
  parts ← (if take <? len parts
           then slice_from parts (len parts - take) else Some parts);
  parts ← (if (0 <? drop) && (drop <? len parts)
           then slice_to parts (len parts - drop) else Some parts);
  let name := strings.Join parts (go ".") in
  Some name.

(** ** [getMessages]: what [reflect] shows of a service *)

(** A callback (a bound method or a function value) is opaque to the
    package: it is only handed to the transport.  It is an identifier. *)
Definition callable := nat.

(** [reflect.Method]: the name of a method and the function it denotes
    once bound to the receiver. *)
Record Method := { Name : gostring; Func : callable }.

(** A non-nil [interface{}] value as [reflect] shows it:
    [reflect.TypeOf(service).String()] and the exported method set, in the
    order of [t.Method(i)]. *)
Record Service := { TypeString : gostring; Methods : list Method }.

Record serviceMessage := {
  queue : bool;
  serviceName : gostring;
  messageName : gostring;
  message : callable
}.

(** ** The transport, the log and the goroutines *)

Definition error := gostring.

(** [context.Context]: only its identity and whether it is done matter. *)
Definition Context := nat.

(** A call of the transport's subscribe API, with its arguments. *)
Inductive Call :=
| SubscribeCall (subject : gostring) (cb : callable)
| QueueSubscribeCall (subject queue : gostring) (cb : callable).

(** [*nats.EncodedConn], seen from the package: whether a subscribe call
    fails (given the calls made before it) and whether unsubscribing a
    handle fails.  Nothing is assumed about either answer. *)
Record EncodedConn := {
  subscribe_err : list Call -> Call -> option error;
  unsubscribe_err : nat -> option error
}.

(** [*nats.Subscription]: the handle of a subscription that succeeded. *)
Record Subscription := { sub_id : nat; sub_conn : EncodedConn }.

Inductive GState := Waiting | Exited.

Global Instance GState_eq_dec : EqDecision GState.
Proof. solve_decision. Defined.

(** The goroutine started by [sub] and [qsub]: it waits on [ctx.Done()],
    calls [Unsubscribe] on its handle and exits. *)
Record Goroutine := { g_ctx : Context; g_sub : Subscription; g_state : GState }.

Record World := {
  calls : list Call;            (* subscribe calls received by the transport *)
  logged : list error;          (* log.Println("error:", err) *)
  goroutines : list Goroutine;  (* every goroutine started so far *)
  unsubscribed : list nat;      (* handles on which Unsubscribe was called *)
  cancelled : list Context      (* contexts whose Done channel is closed *)
}.

(** ** [Subscriber] *)

Record Subscriber := { ctx : Context; econn : EncodedConn }.

Definition NewSubscriber (ctx : Context) (econn : EncodedConn) : Subscriber :=
  {| ctx := ctx; econn := econn |}.

Module fmt.
(** [fmt.Sprintf("%s" + sep + "%s", a, b)] for two strings. *)
Definition Sprintf_s_s (sep : gostring) (a b : gostring) : gostring := a ++ sep ++ b.
End fmt.

(** ** The specification's reference algorithms

    These definitions follow the words of the specification, not the
    code; the theorems below compare the two. *)

Module Spec.

(** "strip everything up to and including the last [/]": what follows
    the last [/], and the whole string when it has none *)
Fixpoint stripNamespace (s : gostring) : gostring :=
  match s with
  | [] => []
  | b :: s' =>
      if bool_decide ("/"%char ∈ s') then stripNamespace s'
      else if Ascii.eqb b "/" then s' else b :: s'
  end.

(** "remove pointer/parenthesis decoration characters" *)
Definition decoration : list ascii := ["("%char; ")"%char; "*"%char].

Definition removeDecoration (s : gostring) : gostring :=
  filter (λ b, b ∉ decoration) s.

(** "keep only the last [n] parts" *)
Definition keepLast {A} (n : nat) (l : list A) : list A :=
  reverse (take n (reverse l)).

(** "drop the last [n] parts" *)
Definition dropLast {A} (n : nat) (l : list A) : list A :=
  reverse (drop n (reverse l)).

(** The steps after the namespace prefix is gone.  The segment count of
    the drop step is the count of the parts that the take step kept. *)
Definition label (name : gostring) (takeSegments dropSegments : Z) : gostring :=
  let parts := strings.Split (removeDecoration name) "." in
  let takeSegments := Z.max 0 takeSegments in
  let kept := if len parts <=? takeSegments then parts
              else keepLast (Z.to_nat takeSegments) parts in
  let kept := if (0 <? dropSegments) && (dropSegments <? len kept)
              then dropLast (Z.to_nat dropSegments) kept else kept in
  strings.Join kept (go ".").

Definition resolveTypeLabel (qualifiedTypeName : gostring)
    (takeSegments dropSegments : Z) : gostring :=
  label (stripNamespace qualifiedTypeName) takeSegments dropSegments.

(** The last [/] of [s] is neither its first nor its final byte. *)
Definition slashInside (s : gostring) : bool :=
  let q := stripNamespace s in
  bool_decide ("/"%char ∈ s) && bool_decide (q ≠ [])
  && bool_decide ((length q + 1 < length s)%nat).

(** "the bare final type-name segment" of a qualified name [q] *)
Definition bareTypeName (q : gostring) : gostring :=
  default [] (last (strings.Split (removeDecoration q) ".")).

(** A string is lower-case: it has no byte in 'A'..'Z'. *)
Definition isUpperByte (b : ascii) : bool :=
  let n := nat_of_ascii b in (65 <=? n)%nat && (n <=? 90)%nat.

Definition isLower (s : gostring) : bool := forallb (λ b, negb (isUpperByte b)) s.

(** A string is lower-case, as Go sees it: lower-casing leaves it as it
    is.  On ASCII strings this is [isLower]. *)
Definition lowerCase (unicodeLower : gostring → gostring) (s : gostring) : Prop :=
  strings.ToLower unicodeLower s = s.

(** A type string names a type: it ends in a byte of a name (or in the
    bracket of a generic or of a struct type), not in [.], [(], [)] or
    [*].  This is so of what [reflect.Type.String] gives for a type that
    has methods. *)
Definition namesType (typeString : gostring) : Prop :=
  ∃ b, last typeString = Some b ∧ b ∉ ["."%char; "("%char; ")"%char; "*"%char].

(** What a descriptor is registered as: "subject = serviceName "."
    messageName", "queue = serviceName "_" messageName" if queued, an
    individual subscription otherwise. *)
Definition registration (v : serviceMessage) : Call :=
  let subject := serviceName v ++ go "." ++ messageName v in
  if queue v
  then QueueSubscribeCall subject (serviceName v ++ go "_" ++ messageName v) (message v)
  else SubscribeCall subject (message v).

(** What an entry of a mapping is registered as under a queue name. *)
Definition entryRegistration (queueName : gostring) (e : gostring * callable) : Call :=
  if bool_decide (queueName = []) then SubscribeCall e.1 e.2
  else QueueSubscribeCall e.1 queueName e.2.

(** The watcher of the attempt that was call number [n] of the
    transport. *)
Definition watcher (c : Context) (conn : EncodedConn) (n : nat) : Goroutine :=
  {| g_ctx := c; g_sub := {| sub_id := n; sub_conn := conn |}; g_state := Waiting |}.

(** The errors that a batch of calls meets, the transport having
    received [history] before it. *)
Fixpoint batch_errors (conn : EncodedConn) (history cs : list Call) : list error :=
  match cs with
  | [] => []
  | call :: cs' =>
      match subscribe_err conn history call with
      | Some e => e :: batch_errors conn (history ++ [call]) cs'
      | None => batch_errors conn (history ++ [call]) cs'
      end
  end.

(** The watchers of the calls of a batch that succeed. *)
Fixpoint batch_watchers (c : Context) (conn : EncodedConn) (history cs : list Call)
    : list Goroutine :=
  match cs with
  | [] => []
  | call :: cs' =>
      match subscribe_err conn history call with
      | Some _ => batch_watchers c conn (history ++ [call]) cs'
      | None => watcher c conn (length history) :: batch_watchers c conn (history ++ [call]) cs'
      end
  end.

(** The handles that the transport grants in a batch of calls: the
    numbers of the calls that it answers without an error. *)
Fixpoint batch_accepted (conn : EncodedConn) (history cs : list Call) : list nat :=
  match cs with
  | [] => []
  | call :: cs' =>
      match subscribe_err conn history call with
      | Some _ => batch_accepted conn (history ++ [call]) cs'
      | None => length history :: batch_accepted conn (history ++ [call]) cs'
      end
  end.

End Spec.

(** ** The code of the package

    The remaining definitions and the theorems are stated for an
    arbitrary behaviour of [strings.Map(unicode.ToLower, s)] on the
    strings that are not ASCII. *)

Section subly.
Variable unicodeLower : gostring → gostring.

(** A proof depends on [unicodeLower] only when its statement does. *)
Set Default Proof Using "Type".

(** [val.MethodByName(name)]; the zero [Value] is [None]. *)
Definition MethodByName (val : Service) (name : gostring) : option callable :=
  Func <$> find (fun m => bool_decide (Name m = name)) (Methods val).

(** [Value.Interface()] panics on the zero [Value]. *)
Definition Interface (v : option callable) : option callable := v.

(** The body of the [for] loop of [getMessages], for the method [m];
    [continue] leaves [res] as it is. *)
Definition getMessages_body (service : Service) (m : Method)
    (res : list serviceMessage) : option (list serviceMessage) :=
  let isMessage := strings.HasSuffix (Name m) (go "Message") in
  let isMessageQueue := strings.HasSuffix (Name m) (go "MessageQueue") in
  if negb isMessage && negb isMessageQueue then Some res
  else
    let messageName := strings.TrimSuffix (Name m) (go "Queue") in
    let messageName := strings.TrimSuffix messageName (go "Message") in
    let messageName := strings.ToLower unicodeLower messageName in
    msg ← Interface (MethodByName service (Name m));
    kind ← polishKindName (TypeString service) 1 0;
    let sm := {| message := msg;
                 serviceName := strings.ToLower unicodeLower kind;
                 messageName := messageName;
                 queue := false |} in
    let sm := if isMessageQueue
              then {| message := message sm; serviceName := serviceName sm;
                      messageName := messageName; queue := true |}
              else sm in
    Some (res ++ [sm]).

Fixpoint getMessages_loop (service : Service) (ms : list Method)
    (res : list serviceMessage) : option (list serviceMessage) :=
  match ms with
  | [] => Some res
  | m :: ms' => res' ← getMessages_body service m res; getMessages_loop service ms' res'
  end.

Definition getMessages (service : Service) : option (list serviceMessage) :=
  getMessages_loop service (Methods service) [].

Definition init : World :=
  {| calls := []; logged := []; goroutines := []; unsubscribed := []; cancelled := [] |}.

Definition log_Println (err : error) (w : World) : World :=
  {| calls := calls w; logged := logged w ++ [err]; goroutines := goroutines w;
     unsubscribed := unsubscribed w; cancelled := cancelled w |}.

(** [go func() { ... }()] *)
Definition spawn (g : Goroutine) (w : World) : World :=
  {| calls := calls w; logged := logged w; goroutines := goroutines w ++ [g];
     unsubscribed := unsubscribed w; cancelled := cancelled w |}.

(** The transport answers a call: it is recorded, and the answer is an
    error or a fresh handle. *)
Definition transport_call (econn : EncodedConn) (c : Call) (w : World)
    : (Subscription + error) * World :=
  let w' := {| calls := calls w ++ [c]; logged := logged w; goroutines := goroutines w;
               unsubscribed := unsubscribed w; cancelled := cancelled w |} in
  match subscribe_err econn (calls w) c with
  | Some err => (inr err, w')
  | None => (inl {| sub_id := length (calls w); sub_conn := econn |}, w')
  end.

(** [econn.Subscribe(subject, x)] *)
Definition EncodedConn_Subscribe (econn : EncodedConn) (subject : gostring)
    (x : callable) : World -> (Subscription + error) * World :=
  transport_call econn (SubscribeCall subject x).

(** [econn.QueueSubscribe(subject, queue, x)] *)
Definition EncodedConn_QueueSubscribe (econn : EncodedConn) (subject queue : gostring)
    (x : callable) : World -> (Subscription + error) * World :=
  transport_call econn (QueueSubscribeCall subject queue x).

Definition sub (ctx : Context) (econn : EncodedConn) (subject : gostring)
    (x : callable) (w : World) : World :=
  match EncodedConn_Subscribe econn subject x w with
  | (inr err, w) => log_Println err w
  | (inl s, w) => spawn {| g_ctx := ctx; g_sub := s; g_state := Waiting |} w
  end.

Definition qsub (ctx : Context) (econn : EncodedConn) (queue subject : gostring)
    (x : callable) (w : World) : World :=
  match EncodedConn_QueueSubscribe econn subject queue x w with
  | (inr err, w) => log_Println err w
  | (inl s, w) => spawn {| g_ctx := ctx; g_sub := s; g_state := Waiting |} w
  end.

(** [sub] and [qsub] have one body, up to the call of the transport. *)
Definition attempt (ctx : Context) (econn : EncodedConn) (call : Call) (w : World) : World :=
  match transport_call econn call w with
  | (inr err, w) => log_Println err w
  | (inl s, w) => spawn {| g_ctx := ctx; g_sub := s; g_state := Waiting |} w
  end.

(** The context of some subscriber is cancelled by its owner. *)
Definition cancel (c : Context) (w : World) : World :=
  {| calls := calls w; logged := logged w; goroutines := goroutines w;
     unsubscribed := unsubscribed w; cancelled := c :: cancelled w |}.

(** What a goroutine does once its context is done: [sub.Unsubscribe()],
    the error logged if there is one, and the goroutine is over. *)
Definition unsubscribe_and_exit (i : nat) (g : Goroutine) (w : World) : World :=
  let w' := {| calls := calls w; logged := logged w;
               goroutines := <[i := {| g_ctx := g_ctx g; g_sub := g_sub g; g_state := Exited |}]>
                               (goroutines w);
               unsubscribed := unsubscribed w ++ [sub_id (g_sub g)];
               cancelled := cancelled w |} in
  match unsubscribe_err (sub_conn (g_sub g)) (sub_id (g_sub g)) with
  | Some err => log_Println err w'
  | None => w'
  end.

(** The scheduler runs goroutine [i]: blocked on [<-ctx.Done()] it stays
    as it is, and so does a goroutine that is over. *)
Definition wake (i : nat) (w : World) : World :=
  match goroutines w !! i with
  | Some g =>
      match g_state g with
      | Waiting =>
          if bool_decide (g_ctx g ∈ cancelled w) then unsubscribe_and_exit i g w else w
      | Exited => w
      end
  | None => w
  end.

(** The [for _, v := range messages] loop of [Subscribe]. *)
Fixpoint Subscribe_range (s : Subscriber) (messages : list serviceMessage)
    (w : World) : World :=
  match messages with
  | [] => w
  | v :: rest =>
      let subject := fmt.Sprintf_s_s (go ".") (serviceName v) (messageName v) in
      if queue v then
        let queueName := fmt.Sprintf_s_s (go "_") (serviceName v) (messageName v) in
        Subscribe_range s rest (qsub (ctx s) (econn s) queueName subject (message v) w)
      else
        Subscribe_range s rest (sub (ctx s) (econn s) subject (message v) w)
  end.

Definition Subscribe (s : Subscriber) (service : Service) (w : World) : option World :=
  messages ← getMessages service;
  Some (Subscribe_range s messages w).

(** The [for sb, m := range messages] loop of [SubscribeFunc], over the
    entries in the order in which the runtime yields them. *)
Fixpoint SubscribeFunc_range (s : Subscriber) (entries : list (gostring * callable))
    (queueName : gostring) (w : World) : World :=
  match entries with
  | [] => w
  | (sb, m) :: rest =>
      let subject := sb in
      if negb (bool_decide (queueName = go "")) then
        SubscribeFunc_range s rest queueName (qsub (ctx s) (econn s) queueName subject m w)
      else
        SubscribeFunc_range s rest queueName (sub (ctx s) (econn s) subject m w)
  end.

(** [SubscribeFunc] for one iteration order of the map. *)
Definition SubscribeFunc_in (s : Subscriber) (order : list (gostring * callable))
    (queue : list gostring) (w : World) : World :=
  let queueName := match queue with q :: _ => q | [] => go "" end in
  SubscribeFunc_range s order queueName w.

(** [SubscribeFunc]: Go ranges over a map in an order of its choice, so a
    call relates a world to each world that some order of the entries
    gives. *)
Definition SubscribeFunc (s : Subscriber) (messages : gmap gostring callable)
    (queue : list gostring) (w w' : World) : Prop :=
  ∃ order, order ≡ₚ map_to_list messages ∧ w' = SubscribeFunc_in s order queue w.

(** ** Runs

    What can happen to a world: a call of one of the two entry points by
    some subscriber, the cancellation of some context, and the scheduler
    running some goroutine.  A run is any sequence of these, so that
    batches, cancellations and goroutines interleave in every way. *)

Inductive Op :=
| OpSubscribe (s : Subscriber) (service : Service)
| OpSubscribeFunc (s : Subscriber) (messages : gmap gostring callable) (queue : list gostring)
| OpCancel (c : Context)
| OpWake (i : nat).

Inductive exec : Op → World → World → Prop :=
| exec_Subscribe s service w w' :
    Subscribe s service w = Some w' → exec (OpSubscribe s service) w w'
| exec_SubscribeFunc s messages queue w w' :
    SubscribeFunc s messages queue w w' → exec (OpSubscribeFunc s messages queue) w w'
| exec_Cancel c w : exec (OpCancel c) w (cancel c w)
| exec_Wake i w : exec (OpWake i) w (wake i w).

Inductive reachable : World → Prop :=
| reachable_init : reachable init
| reachable_exec op w w' : reachable w → exec op w w' → reachable w'.

(** The registrations that succeed, read off the transport: the handles
    that the transport [conn] granted for the calls it received between
    the worlds [w] and [w']. *)
Definition granted (conn : EncodedConn) (w w' : World) : list nat :=
  Spec.batch_accepted conn (calls w) (drop (length (calls w)) (calls w')).

(** The successful registrations of a run, for each context: a call of
    [Subscribe] or of [SubscribeFunc] by a subscriber adds what the
    transport granted to the context of the subscriber. *)
Definition account (op : Op) (w w' : World) (acc : Context → list nat)
    : Context → list nat :=
  match op with
  | OpSubscribe s _ | OpSubscribeFunc s _ _ =>
      λ c, if decide (c = ctx s) then acc c ++ granted (econn s) w w' else acc c
  | OpCancel _ | OpWake _ => acc
  end.

(** A run, with the account of its successful registrations. *)
Inductive run : World → (Context → list nat) → Prop :=
| run_init : run init (λ _, [])
| run_exec op w w' acc : run w acc → exec op w w' → run w' (account op w w' acc).

(** The handle that a goroutine unsubscribes. *)
Definition gid (g : Goroutine) : nat := sub_id (g_sub g).

(** The handles of the registrations that succeeded under the context
    [c]: each of them started one goroutine. *)
Definition registrations (c : Context) (w : World) : list nat :=
  gid <$> filter (λ g, g_ctx g = c) (goroutines w).

(** The unsubscribe attempts made so far on these handles. *)
Definition attempts (c : Context) (w : World) : list nat :=
  filter (λ n, n ∈ registrations c w) (unsubscribed w).

(** The scheduler runs the goroutines of a schedule, one after the
    other. *)
Definition wakes (schedule : list nat) (w : World) : World :=
  foldl (λ w i, wake i w) w schedule.

(** The goroutine at index [i] is over if it belongs to [c]. *)
Definition settled (c : Context) (w : World) (i : nat) : Prop :=
  ∀ g, goroutines w !! i = Some g → g_ctx g = c → g_state g = Exited.

(** What every world of a run satisfies. *)
Record consistent (w : World) : Prop := {
  ids_issued : ∀ g, g ∈ goroutines w → (gid g < length (calls w))%nat;
  ids_distinct : NoDup (gid <$> goroutines w);
  unsubscribed_exited :
    unsubscribed w ≡ₚ gid <$> filter (λ g, g_state g = Exited) (goroutines w);
  exited_cancelled :
    ∀ g, g ∈ goroutines w → g_state g = Exited → g_ctx g ∈ cancelled w
}.

Definition someService : Service :=
  {| TypeString := go "*subly.someService";
     Methods := [ {| Name := go "Helper"; Func := 7%nat |};
                  {| Name := go "RepActionMessageQueue"; Func := 8%nat |};
                  {| Name := go "SubActionMessage"; Func := 9%nat |} ] |}.

(** A service whose only method is named [Message]. *)
Definition inboxService : Service :=
  {| TypeString := go "*subly.inbox";
     Methods := [ {| Name := go "Message"; Func := 1%nat |} ] |}.

(** A transport that refuses the subject ["someservice.repaction"]. *)
Definition refusing : EncodedConn :=
  {| subscribe_err := λ _ call,
       match call with
       | QueueSubscribeCall subject _ _ =>
           if bool_decide (subject = go "someservice.repaction")
           then Some (go "nats: connection closed") else None
       | SubscribeCall _ _ => None
       end;
     unsubscribe_err := λ _, None |}.

(** A transport on which every call succeeds. *)
Definition reliable : EncodedConn :=
  {| subscribe_err := λ _ _, None; unsubscribe_err := λ _, None |}.

(** A run: [someService] is subscribed on a reliable transport under the
    context 0, which is then cancelled. *)
Definition someRun : World :=
  cancel 0%nat
    (Subscribe_range (NewSubscriber 0%nat reliable)
       [ {| queue := true; serviceName := go "someservice";
            messageName := go "repaction"; message := 8%nat |};
         {| queue := false; serviceName := go "someservice";
            messageName := go "subaction"; message := 9%nat |} ] init).

(** ** Further notions for the properties of the code *)

(** The bytes that [polishKindName] treats specially. *)
Definition special : list ascii := ["/"%char; "."%char; "("%char; ")"%char; "*"%char].

(** A name without any special byte. *)
Definition plain (s : gostring) : Prop := Forall (λ b, b ∉ special) s.

(** The name as lines 55-60 of [polishKindName] leave it: the namespace
    prefix gone when the guard lets it go, the decoration bytes gone. *)
Definition cleaned (name : gostring) : gostring :=
  Spec.removeDecoration (if Spec.slashInside name then Spec.stripNamespace name else name).

(** The test of lines 89-98 of [getMessages]: the method is kept. *)
Definition kept (m : Method) : bool :=
  strings.HasSuffix (Name m) (go "Message")
  || strings.HasSuffix (Name m) (go "MessageQueue").

(** Lines 100-102 of [getMessages]. *)
Definition messageNameOf (m : Method) : gostring :=
  strings.ToLower unicodeLower
    (strings.TrimSuffix (strings.TrimSuffix (Name m) (go "Queue")) (go "Message")).

(** The subject under which [Subscribe] registers a descriptor. *)
Definition subjectOf (v : serviceMessage) : gostring :=
  fmt.Sprintf_s_s (go ".") (serviceName v) (messageName v).

(** A service with two methods that differ in the suffix only. *)
Definition twinService : Service :=
  {| TypeString := go "*main.Orders";
     Methods := [ {| Name := go "CreateMessage"; Func := 1%nat |};
                  {| Name := go "CreateMessageQueue"; Func := 2%nat |} ] |}.

(** A transport on which unsubscribing fails. *)
Definition stuck : EncodedConn :=
  {| subscribe_err := λ _ _, None;
     unsubscribe_err := λ _, Some (go "nats: invalid subscription") |}.

(** The account of that run: the transport granted the handles 0 and 1
    under the context 0. *)
Definition someAccount : Context → list nat :=
  λ c, if decide (c = 0%nat) then [] ++ [0%nat; 1%nat] else [].

Example getMessages_someService :
  getMessages someService =
  Some [ {| queue := true; serviceName := go "someservice";
            messageName := go "repaction"; message := 8%nat |};
         {| queue := false; serviceName := go "someservice";
            messageName := go "subaction"; message := 9%nat |} ].
Proof. reflexivity. Qed.

Example polishKindName_example :
  polishKindName (go "pkg/sub.(*SomeService)") 1 0 = Some (go "SomeService").
Proof. reflexivity. Qed.

Example polishKindName_take2_drop1 :
  polishKindName (go "a/b.c.d") 2 1 = Some (go "c")
  ∧ Spec.resolveTypeLabel (go "a/b.c.d") 2 1 = go "c".
Proof. split; vm_compute; reflexivity. Qed.

Example polishKindName_leading_slash :
  polishKindName (go "/abc") 1 0 = Some (go "/abc")
  ∧ Spec.resolveTypeLabel (go "/abc") 1 0 = go "abc".
Proof. split; vm_compute; reflexivity. Qed.

Example polishKindName_trailing_slash :
  polishKindName (go "abc/") 1 0 = Some (go "abc/")
  ∧ Spec.resolveTypeLabel (go "abc/") 1 0 = go "".
Proof. split; vm_compute; reflexivity. Qed.

(** ** Facts about the string functions *)


Section string_facts.
Implicit Types (s q ns : gostring) (c b : ascii).

Lemma len_nonneg {A} (l : list A) : 0 <= len l.
Proof. unfold len. lia. Qed.

Lemma len_app {A} (l k : list A) : len (l ++ k) = len l + len k.
Proof. unfold len. rewrite length_app. lia. Qed.

Lemma len_cons {A} (x : A) (l : list A) : len (x :: l) = len l + 1.
Proof. unfold len. simpl. lia. Qed.

Lemma len_pos {A} (l : list A) : 0 < len l ↔ l ≠ [].
Proof. unfold len. destruct l; simpl; split; intros; try done; lia. Qed.

Lemma LastIndexByte_absent s c : c ∉ s → strings.LastIndexByte s c = -1.
Proof.
  induction s as [|b s IH]; [done|].
  intros [Hb Hs]%not_elem_of_cons. simpl. rewrite (IH Hs). simpl.
  destruct (Ascii.eqb_spec b c); congruence.
Qed.

Lemma LastIndexByte_last ns q c :
  c ∉ q → strings.LastIndexByte (ns ++ c :: q) c = len ns.
Proof.
  intros Hq. induction ns as [|b ns IH]; simpl.
  - rewrite (LastIndexByte_absent q c Hq). simpl. by rewrite Ascii.eqb_refl.
  - rewrite IH. pose proof (len_nonneg ns) as Hn.
    destruct (Z.leb_spec 0 (len ns)); [|lia]. rewrite len_cons. lia.
Qed.

Lemma stripNamespace_absent s : "/"%char ∉ s → Spec.stripNamespace s = s.
Proof.
  destruct s as [|b s]; [done|].
  intros [Hb Hs]%not_elem_of_cons. simpl.
  rewrite bool_decide_eq_false_2 by done.
  destruct (Ascii.eqb_spec b "/"); congruence.
Qed.

Lemma stripNamespace_last ns q :
  "/"%char ∉ q → Spec.stripNamespace (ns ++ "/"%char :: q) = q.
Proof.
  intros Hq. induction ns as [|b ns IH]; simpl.
  - by rewrite bool_decide_eq_false_2.
  - rewrite bool_decide_eq_true_2; [done|]. apply elem_of_app. right. by left.
Qed.

(** The table of [polishKindName] deletes the decoration bytes. *)
Lemma Replace_decoration s :
  strings.Replace [("("%char, go ""); (")"%char, go ""); ("*"%char, go "")] s
  = Spec.removeDecoration s.
Proof.
  unfold Spec.removeDecoration. induction s as [|b s IH]; [done|].
  cbn [strings.Replace strings.replacement]. rewrite filter_cons.
  destruct (Ascii.eqb_spec b "("); [subst; by rewrite decide_False by (intros H; apply H; repeat constructor)|].
  destruct (Ascii.eqb_spec b ")"); [subst; by rewrite decide_False by (intros H; apply H; repeat constructor)|].
  destruct (Ascii.eqb_spec b "*"); [subst; by rewrite decide_False by (intros H; apply H; repeat constructor)|].
  rewrite decide_True; [by rewrite IH|].
  unfold Spec.decoration. rewrite !not_elem_of_cons.
  repeat split; auto using not_elem_of_nil.
Qed.

Lemma Split_length s c : (1 <= length (strings.Split s c))%nat.
Proof.
  induction s as [|b s IH]; simpl; [lia|].
  destruct (Ascii.eqb b c); simpl; [lia|].
  destruct (strings.Split s c); simpl in *; lia.
Qed.

Lemma keepLast_drop {A} (n : nat) (l : list A) :
  Spec.keepLast n l = drop (length l - n) l.
Proof. unfold Spec.keepLast. by rewrite take_reverse, reverse_involutive. Qed.

Lemma dropLast_take {A} (n : nat) (l : list A) :
  Spec.dropLast n l = take (length l - n) l.
Proof.
  unfold Spec.dropLast. by rewrite drop_reverse, reverse_involutive.
Qed.

End string_facts.

(** ** [polishKindName] against the reference algorithm *)

Section polishKindName_steps.
Implicit Types (name : gostring) (parts : list gostring).

(** Every string has a last [/] or none. *)
Lemma last_slash name :
  "/"%char ∉ name
  ∨ ∃ ns q, name = ns ++ "/"%char :: q ∧ "/"%char ∉ q.
Proof.
  destruct (decide ("/"%char ∈ name)) as [Hin|]; [right|by left].
  apply list_elem_of_split_r in Hin as (ns & q & -> & Hq). eauto.
Qed.

Lemma slashInside_split ns q :
  "/"%char ∉ q →
  Spec.slashInside (ns ++ "/"%char :: q) = bool_decide (ns ≠ []) && bool_decide (q ≠ []).
Proof.
  intros Hq. unfold Spec.slashInside. rewrite stripNamespace_last by done.
  rewrite bool_decide_eq_true_2 by (apply elem_of_app; right; by left). simpl.
  rewrite andb_comm. f_equal.
  apply bool_decide_ext. rewrite length_app. simpl.
  destruct ns; simpl; split; intros; try done; lia.
Qed.

Lemma slashInside_absent name : "/"%char ∉ name → Spec.slashInside name = false.
Proof. intros H. unfold Spec.slashInside. by rewrite bool_decide_eq_false_2. Qed.

(** Lines 55-58: the guarded removal of the namespace prefix. *)
Lemma strip_step name :
  let ix := strings.LastIndexByte name "/" in
  (if (0 <? ix) && (ix + 1 <? len name) then slice_from name (ix + 1) else Some name)
  = Some (if Spec.slashInside name then Spec.stripNamespace name else name).
Proof.
  destruct (last_slash name) as [Hno | (ns & q & -> & Hq)]; cbv zeta.
  - rewrite LastIndexByte_absent, slashInside_absent by done. done.
  - rewrite LastIndexByte_last, slashInside_split, stripNamespace_last by done.
    unfold slice_from. rewrite !len_app, !len_cons.
    rewrite <- (bool_decide_ext _ _ (len_pos ns)), <- (bool_decide_ext _ _ (len_pos q)).
    pose proof (len_nonneg ns). pose proof (len_nonneg q).
    do 2 case_bool_decide; simpl; Z_cases; try lia; try done.
    f_equal.
    replace (Z.to_nat (len ns + 1)) with (length ns + 1)%nat by (unfold len; lia).
    rewrite <- drop_drop, drop_app_length. done.
Qed.

(** Lines 62-67: the last [take] parts. *)
Lemma take_step parts (take : Z) :
  let take := if take <? 0 then 0 else take in
  (if take <? len parts then slice_from parts (len parts - take) else Some parts)
  = Some (if len parts <=? Z.max 0 take then parts
          else Spec.keepLast (Z.to_nat (Z.max 0 take)) parts).
Proof.
  cbv zeta. pose proof (len_nonneg parts) as Hl.
  destruct (Z.ltb_spec take 0) as [Hneg|Hpos].
  - rewrite Z.max_l by lia.
    destruct (Z.ltb_spec 0 (len parts)); destruct (Z.leb_spec (len parts) 0);
      try lia; try done.
    unfold slice_from. rewrite Z.sub_0_r.
    destruct (Z.leb_spec 0 (len parts)); [|lia]. rewrite Z.leb_refl. simpl.
    f_equal. rewrite keepLast_drop. f_equal. unfold len. lia.
  - rewrite !Z.max_r by lia.
    destruct (Z.ltb_spec take (len parts)); destruct (Z.leb_spec (len parts) take);
      try lia; try done.
    unfold slice_from.
    destruct (Z.leb_spec 0 (len parts - take)); [|lia].
    destruct (Z.leb_spec (len parts - take) (len parts)); [|lia]. simpl.
    f_equal. rewrite keepLast_drop. f_equal. unfold len. lia.
Qed.

(** Lines 68-70: without the last [drop] parts. *)
Lemma drop_step parts (drop : Z) :
  (if (0 <? drop) && (drop <? len parts)
   then slice_to parts (len parts - drop) else Some parts)
  = Some (if (0 <? drop) && (drop <? len parts)
          then Spec.dropLast (Z.to_nat drop) parts else parts).
Proof.
  destruct (Z.ltb_spec 0 drop); [|done].
  destruct (Z.ltb_spec drop (len parts)); [|done]. simpl.
  unfold slice_to.
  destruct (Z.leb_spec 0 (len parts - drop)); [|lia].
  destruct (Z.leb_spec (len parts - drop) (len parts)); [|lia]. simpl.
  f_equal. rewrite dropLast_take. f_equal. unfold len. lia.
Qed.

(** [polishKindName] never panics: it is the reference algorithm in
    which the namespace prefix goes only when the last [/] is inside
    the name. *)
Lemma polishKindName_label name (take drop : Z) :
  polishKindName name take drop
  = Some (Spec.label (if Spec.slashInside name then Spec.stripNamespace name else name)
                     take drop).
Proof.
  unfold polishKindName. cbv zeta. rewrite strip_step. simpl.
  rewrite Replace_decoration.
  pose proof (take_step
    (strings.Split (Spec.removeDecoration
       (if Spec.slashInside name then Spec.stripNamespace name else name)) ".") take)
    as Ht. cbv zeta in Ht. rewrite Ht. simpl.
  rewrite drop_step. simpl. unfold Spec.label. cbv zeta.
  replace (Z.max 0 (if take <? 0 then 0 else take)) with (Z.max 0 take); [done|].
  destruct (Z.ltb_spec take 0); lia.
Qed.

End polishKindName_steps.

(** The last [/] is inside the name exactly when the name is a non-empty
    namespace, a [/], and a non-empty rest without [/]. *)
Lemma slashInside_iff (name : gostring) :
  Spec.slashInside name = true
  ↔ ∃ ns q, name = ns ++ "/"%char :: q ∧ ns ≠ [] ∧ q ≠ [] ∧ "/"%char ∉ q.
Proof.
  split.
  - destruct (last_slash name) as [Hno | (ns & q & -> & Hq)].
    + by rewrite slashInside_absent.
    + rewrite slashInside_split by done.
      intros [H1%bool_decide_eq_true H2%bool_decide_eq_true]%andb_true_iff.
      eauto 10.
  - intros (ns & q & -> & Hns & Hq & Hno). rewrite slashInside_split by done.
    by rewrite !bool_decide_eq_true_2.
Qed.

Section bare_type_name.
Implicit Types (s p : gostring) (c b : ascii).

Lemma Split_parts s c p b :
  p ∈ strings.Split s c → b ∈ p → b ∈ s ∧ b ≠ c.
Proof.
  revert p. induction s as [|a s IH]; simpl; intros p Hp Hb.
  - apply list_elem_of_singleton in Hp as ->. by apply elem_of_nil in Hb.
  - destruct (Ascii.eqb_spec a c) as [->|Hne].
    + apply elem_of_cons in Hp as [->|Hp]; [by apply elem_of_nil in Hb|].
      destruct (IH p Hp Hb). split; [by right|done].
    + pose proof (Split_length s c) as Hlen.
      destruct (strings.Split s c) as [|p0 ps]; [simpl in Hlen; lia|].
      apply elem_of_cons in Hp as [->|Hp].
      * apply elem_of_cons in Hb as [->|Hb]; [split; [by left|done]|].
        destruct (IH p0 ltac:(by left) Hb). split; [by right|done].
      * destruct (IH p ltac:(by right) Hb). split; [by right|done].
Qed.

Lemma keepLast_one {A} (l : list A) (x : A) :
  last l = Some x → Spec.keepLast 1 l = [x].
Proof.
  intros [l' ->]%last_Some. rewrite keepLast_drop, length_app. simpl.
  apply drop_app_length'. lia.
Qed.

(** With [take = 1] and [drop = 0] the reference steps give the last
    segment. *)
Lemma label_1_0 s : Spec.label s 1 0 = Spec.bareTypeName s.
Proof.
  unfold Spec.label, Spec.bareTypeName. cbv zeta.
  pose proof (Split_length (Spec.removeDecoration s) ".") as Hlen.
  destruct (last (strings.Split (Spec.removeDecoration s) ".")) as [x|] eqn:Hlast.
  2:{ apply last_None in Hlast. rewrite Hlast in Hlen. simpl in Hlen. lia. }
  simpl. change (Z.max 0 1) with 1.
  destruct (Z.leb_spec (len (strings.Split (Spec.removeDecoration s) ".")) 1) as [Hle|Hgt].
  - apply last_Some in Hlast as [l' Hl']. rewrite Hl' in *.
    unfold len in Hle. rewrite length_app in Hle. simpl in Hle.
    destruct l'; [|simpl in Hle; lia]. simpl. done.
  - change (Z.to_nat 1) with 1%nat. rewrite (keepLast_one _ x Hlast). done.
Qed.

Lemma bareTypeName_clean s b :
  b ∈ Spec.bareTypeName s → b ∈ s ∧ b ≠ "."%char ∧ b ∉ Spec.decoration.
Proof.
  unfold Spec.bareTypeName.
  destruct (last (strings.Split (Spec.removeDecoration s) ".")) as [x|] eqn:Hlast;
    simpl; [|by intros ?%elem_of_nil].
  intros Hb. apply last_Some_elem_of in Hlast.
  destruct (Split_parts _ _ _ _ Hlast Hb) as [Hin Hdot].
  apply list_elem_of_filter in Hin as [Hdec Hin]. done.
Qed.

End bare_type_name.

(** ** The claims on [polishKindName] *)

(** C1, as the specification words it, fails: when the name ends in its
    last [/] the code strips nothing, and the reference algorithm strips
    the whole name. *)
Lemma polishKindName_not_reference :
  ¬ (∀ (name : gostring) (take drop : Z),
       polishKindName name take drop = Some (Spec.resolveTypeLabel name take drop)).
Proof.
  intros H. specialize (H (go "abc/") 1 0). vm_compute in H. discriminate H.
Qed.

(** C1, amended: [polishKindName] never panics and always returns a
    string, for every name and every pair of integers.  The string is the
    output of the reference algorithm (strip through the last [/], remove
    the decoration bytes, split on [.], keep the last [take] parts, drop
    the last [drop] ones when [0 < drop < ] the number of parts kept,
    join with [.]) unless the name has a [/] whose last occurrence is its
    first or its final byte: then nothing is stripped, and the other
    steps run on the whole name.  [slashInside_iff] says what
    [Spec.slashInside] means. *)
Theorem polishKindName_guarded_reference (name : gostring) (take drop : Z) :
  polishKindName name take drop
  = Some (if bool_decide ("/"%char ∈ name) && negb (Spec.slashInside name)
          then Spec.label name take drop
          else Spec.resolveTypeLabel name take drop).
Proof.
  rewrite polishKindName_label. f_equal. unfold Spec.resolveTypeLabel.
  case_bool_decide as Hin; simpl.
  - by destruct (Spec.slashInside name).
  - by rewrite slashInside_absent, stripNamespace_absent.
Qed.

(** C2: for a qualified type string [ns/q], with a namespace [ns] and a
    type part [q] that are not empty ([q] without [/], decorated or not),
    [polishKindName] with [take = 1] and [drop = 0] returns the last
    dot-separated segment of [q] without its decoration bytes; no [/],
    [.], [(], [)] or [*] is left in it. *)
Theorem polishKindName_bare_type_name (ns q : gostring) :
  ns ≠ [] → q ≠ [] → "/"%char ∉ q →
  polishKindName (ns ++ "/"%char :: q) 1 0 = Some (Spec.bareTypeName q)
  ∧ ∀ b, b ∈ Spec.bareTypeName q →
         b ∉ ["/"%char; "."%char; "("%char; ")"%char; "*"%char].
Proof.
  intros Hns Hq Hno. split.
  - rewrite polishKindName_label.
    assert (Spec.slashInside (ns ++ "/"%char :: q) = true) as ->
      by (apply slashInside_iff; eauto 10).
    by rewrite stripNamespace_last, label_1_0.
  - intros b Hb. destruct (bareTypeName_clean _ _ Hb) as (Hin & Hdot & Hdec).
    unfold Spec.decoration in Hdec.
    rewrite !not_elem_of_cons in *. destruct Hdec as (? & ? & ? & _).
    repeat split; auto using not_elem_of_nil. by intros ->.
Qed.

(** ** Suffixes and lower case *)

Section suffix_facts.
Implicit Types (s base suf : gostring).

Lemma HasSuffix_iff s suf : strings.HasSuffix s suf = true ↔ suf `suffix_of` s.
Proof.
  unfold strings.HasSuffix. rewrite andb_true_iff, Nat.leb_le, bool_decide_eq_true.
  split.
  - intros [Hlen Hdrop]. exists (take (length s - length suf) s).
    rewrite <- Hdrop at 2. by rewrite take_drop.
  - intros [k ->]. rewrite length_app. split; [lia|].
    apply drop_app_length'. lia.
Qed.

Lemma HasSuffix_app base suf : strings.HasSuffix (base ++ suf) suf = true.
Proof. apply HasSuffix_iff. by exists base. Qed.

Lemma TrimSuffix_app base suf : strings.TrimSuffix (base ++ suf) suf = base.
Proof.
  unfold strings.TrimSuffix. rewrite HasSuffix_app, length_app.
  apply take_app_length'. lia.
Qed.

(** Whether [base ++ suf] ends in a string no longer than [suf] is
    decided by [suf]. *)
Lemma HasSuffix_app_short base suf suf' :
  (length suf' <= length suf)%nat →
  strings.HasSuffix (base ++ suf) suf' = strings.HasSuffix suf suf'.
Proof.
  intros Hlen. unfold strings.HasSuffix. rewrite length_app.
  rewrite (proj2 (Nat.leb_le _ _)) by lia.
  rewrite (proj2 (Nat.leb_le _ _) Hlen). simpl.
  apply bool_decide_ext.
  replace (length base + length suf - length suf')%nat
    with (length base + (length suf - length suf'))%nat by lia.
  by rewrite <- drop_drop, drop_app_length.
Qed.

Lemma TrimSuffix_absent s suf :
  strings.HasSuffix s suf = false → strings.TrimSuffix s suf = s.
Proof. unfold strings.TrimSuffix. by intros ->. Qed.

(** A name that ends in ["Message"] ends neither in ["Queue"] nor in
    ["MessageQueue"]. *)
Lemma Message_not_Queue base :
  strings.HasSuffix (base ++ go "Message") (go "Queue") = false.
Proof. by rewrite HasSuffix_app_short by (simpl; lia). Qed.

Lemma MessageQueue_not_Message base :
  strings.HasSuffix (base ++ go "MessageQueue") (go "Message") = false.
Proof. by rewrite HasSuffix_app_short by (simpl; lia). Qed.

Lemma Message_not_MessageQueue base :
  strings.HasSuffix (base ++ go "Message") (go "MessageQueue") = false.
Proof.
  destruct (strings.HasSuffix (base ++ go "Message") (go "MessageQueue")) eqn:H; [|done].
  apply HasSuffix_iff in H as [k Hk].
  pose proof (HasSuffix_app base (go "Message")) as Ht.
  rewrite Hk, MessageQueue_not_Message in Ht. done.
Qed.

Lemma lowerByte_not_upper (b : ascii) : Spec.isUpperByte (strings.lowerByte b) = false.
Proof. destruct b as [[] [] [] [] [] [] [] []]; reflexivity. Qed.

Lemma lowerByte_ascii (b : ascii) :
  (nat_of_ascii (strings.lowerByte b) <? 128)%nat = (nat_of_ascii b <? 128)%nat.
Proof. destruct b as [[] [] [] [] [] [] [] []]; reflexivity. Qed.

Lemma lowerByte_idem (b : ascii) :
  strings.lowerByte (strings.lowerByte b) = strings.lowerByte b.
Proof. destruct b as [[] [] [] [] [] [] [] []]; reflexivity. Qed.

Lemma lowerByte_fixed (b : ascii) :
  strings.lowerByte b = b ↔ Spec.isUpperByte b = false.
Proof. destruct b as [[] [] [] [] [] [] [] []]; split; (reflexivity || discriminate). Qed.

Lemma isASCII_lower s : strings.isASCII (map strings.lowerByte s) = strings.isASCII s.
Proof.
  unfold strings.isASCII. induction s as [|b s IH]; [done|].
  simpl. by rewrite lowerByte_ascii, IH.
Qed.

Lemma isASCII_elem s :
  strings.isASCII s = true ↔ ∀ b, b ∈ s → (nat_of_ascii b <? 128)%nat = true.
Proof.
  unfold strings.isASCII. rewrite forallb_forall.
  split; intros H b Hb; apply H; by apply list_elem_of_In.
Qed.

Lemma isASCII_subseteq s t :
  s ⊆ t → strings.isASCII t = true → strings.isASCII s = true.
Proof. rewrite !isASCII_elem. intros Hst Ht b Hb. by apply Ht, Hst. Qed.

(** On ASCII strings [strings.ToLower] is the map of the bytes. *)
Lemma ToLower_ascii s :
  strings.isASCII s = true → strings.ToLower unicodeLower s = map strings.lowerByte s.
Proof. unfold strings.ToLower. by intros ->. Qed.

Lemma map_lowerByte_isLower s : Spec.isLower (map strings.lowerByte s) = true.
Proof.
  unfold Spec.isLower. induction s as [|b s IH]; [done|].
  simpl. by rewrite lowerByte_not_upper, IH.
Qed.

(** The lower-cased form of an ASCII string has no upper-case letter. *)
Lemma ToLower_isLower s :
  strings.isASCII s = true → Spec.isLower (strings.ToLower unicodeLower s) = true.
Proof. intros Hs. rewrite ToLower_ascii by done. apply map_lowerByte_isLower. Qed.

(** On ASCII strings, to be lower-case is to have no upper-case letter. *)
Lemma lowerCase_ascii s :
  strings.isASCII s = true → Spec.lowerCase unicodeLower s ↔ Spec.isLower s = true.
Proof.
  intros Hs. unfold Spec.lowerCase. rewrite ToLower_ascii by done. clear Hs.
  unfold Spec.isLower. induction s as [|b s IH]; [done|].
  simpl. rewrite andb_true_iff, negb_true_iff, <- IH, <- lowerByte_fixed.
  split; [by intros [= -> ->]|by intros [-> ->]].
Qed.

(** A lower-cased string is lower-case. *)
Lemma ToLower_lowerCase s :
  lowering unicodeLower → Spec.lowerCase unicodeLower (strings.ToLower unicodeLower s).
Proof.
  intros [_ Hidem]. unfold Spec.lowerCase.
  destruct (strings.isASCII s) eqn:Hs.
  - rewrite (ToLower_ascii s Hs), ToLower_ascii by (by rewrite isASCII_lower).
    rewrite map_map. apply map_ext. intros b. apply lowerByte_idem.
  - unfold strings.ToLower at 2 3. rewrite Hs. apply Hidem.
Qed.

Lemma ToLower_nil_iff s :
  lowering unicodeLower → strings.ToLower unicodeLower s = [] ↔ s = [].
Proof.
  intros [Hne _]. unfold strings.ToLower.
  destruct (strings.isASCII s) eqn:Hs; [by destruct s|].
  split; [|by intros ->]. intros Hnil.
  destruct s as [|b s]; [done|]. by apply Hne in Hnil.
Qed.

End suffix_facts.

(** ** One round of the loop of [getMessages] *)

Lemma MethodByName_found (service : Service) (m : Method) :
  m ∈ Methods service → is_Some (MethodByName service (Name m)).
Proof.
  intros Hin. unfold MethodByName.
  destruct (find _ (Methods service)) as [m'|] eqn:Hfind; [by eexists|].
  apply list_elem_of_In in Hin.
  pose proof (find_none _ _ Hfind m Hin) as Hf. simpl in Hf.
  by rewrite bool_decide_eq_true_2 in Hf.
Qed.

(** A method that ends in one of the two suffixes gives one descriptor,
    and the round does not panic. *)
Lemma getMessages_body_match (service : Service) (m : Method) (res : list serviceMessage) :
  m ∈ Methods service →
  strings.HasSuffix (Name m) (go "Message")
    || strings.HasSuffix (Name m) (go "MessageQueue") = true →
  ∃ f kind,
    MethodByName service (Name m) = Some f
    ∧ polishKindName (TypeString service) 1 0 = Some kind
    ∧ getMessages_body service m res
      = Some (res ++ [ {| queue := strings.HasSuffix (Name m) (go "MessageQueue");
                          serviceName := strings.ToLower unicodeLower kind;
                          messageName :=
                            strings.ToLower unicodeLower
                              (strings.TrimSuffix (strings.TrimSuffix (Name m) (go "Queue"))
                                 (go "Message"));
                          message := f |} ]).
Proof.
  intros Hin Hsuf. destruct (MethodByName_found service m Hin) as [f Hf].
  pose proof (polishKindName_label (TypeString service) 1 0) as Hk.
  eexists f, _. split; [done|]. split; [exact Hk|].
  unfold getMessages_body. cbv zeta.
  apply orb_true_iff in Hsuf.
  destruct (strings.HasSuffix (Name m) (go "Message")) eqn:H1;
    destruct (strings.HasSuffix (Name m) (go "MessageQueue")) eqn:H2;
    simpl; try (destruct Hsuf; discriminate);
    unfold Interface; rewrite Hf, Hk; done.
Qed.

(** A method that ends in neither suffix is skipped. *)
Lemma getMessages_body_skip (service : Service) (m : Method) (res : list serviceMessage) :
  strings.HasSuffix (Name m) (go "Message") = false →
  strings.HasSuffix (Name m) (go "MessageQueue") = false →
  getMessages_body service m res = Some res.
Proof. intros H1 H2. unfold getMessages_body. cbv zeta. by rewrite H1, H2. Qed.

Lemma getMessages_loop_app (service : Service) (ms ms' : list Method) (res : list serviceMessage) :
  getMessages_loop service (ms ++ ms') res
  = res' ← getMessages_loop service ms res; getMessages_loop service ms' res'.
Proof.
  revert res. induction ms as [|m ms IH]; intros res; simpl; [done|].
  destruct (getMessages_body service m res) as [res'|]; simpl; [apply IH|done].
Qed.

(** The descriptor of a method named [base ++ "MessageQueue"]. *)
Lemma getMessages_body_MessageQueue (service : Service) (m : Method)
    (res : list serviceMessage) (base : gostring) :
  m ∈ Methods service → Name m = base ++ go "MessageQueue" →
  ∃ f kind,
    polishKindName (TypeString service) 1 0 = Some kind
    ∧ getMessages_body service m res
      = Some (res ++ [ {| queue := true; serviceName := strings.ToLower unicodeLower kind;
                          messageName := strings.ToLower unicodeLower base; message := f |} ]).
Proof.
  intros Hin Hname.
  destruct (getMessages_body_match service m res Hin) as (f & kind & _ & Hk & ->).
  { rewrite Hname, HasSuffix_app. apply orb_true_r. }
  exists f, kind. split; [done|]. rewrite Hname, HasSuffix_app.
  change (go "MessageQueue") with (go "Message" ++ go "Queue").
  by rewrite app_assoc, !TrimSuffix_app.
Qed.

(** The descriptor of a method named [base ++ "Message"]. *)
Lemma getMessages_body_Message (service : Service) (m : Method)
    (res : list serviceMessage) (base : gostring) :
  m ∈ Methods service → Name m = base ++ go "Message" →
  ∃ f kind,
    polishKindName (TypeString service) 1 0 = Some kind
    ∧ getMessages_body service m res
      = Some (res ++ [ {| queue := false; serviceName := strings.ToLower unicodeLower kind;
                          messageName := strings.ToLower unicodeLower base; message := f |} ]).
Proof.
  intros Hin Hname.
  destruct (getMessages_body_match service m res Hin) as (f & kind & _ & Hk & ->).
  { rewrite Hname, HasSuffix_app. done. }
  exists f, kind. split; [done|]. rewrite Hname, Message_not_MessageQueue.
  by rewrite (TrimSuffix_absent _ _ (Message_not_Queue base)), TrimSuffix_app.
Qed.

(** ** The claims on the resolution of a member *)

(** C3: a method whose name is [base ++ "MessageQueue"] gives a
    descriptor with [queue = true] and the lower-cased [base] as
    [messageName]; a method whose name is [base ++ "Message"] (such a name
    never ends in ["MessageQueue"]) gives one with [queue = false] and the
    lower-cased [base]. *)
Theorem member_resolution (service : Service) (m : Method)
    (res : list serviceMessage) (base : gostring) :
  m ∈ Methods service →
  (Name m = base ++ go "MessageQueue" →
   ∃ sm, getMessages_body service m res = Some (res ++ [sm])
         ∧ queue sm = true ∧ messageName sm = strings.ToLower unicodeLower base)
  ∧ (Name m = base ++ go "Message" →
     strings.HasSuffix (Name m) (go "MessageQueue") = false
     ∧ ∃ sm, getMessages_body service m res = Some (res ++ [sm])
             ∧ queue sm = false ∧ messageName sm = strings.ToLower unicodeLower base).
Proof.
  intros Hin. split; intros Hname.
  - destruct (getMessages_body_MessageQueue service m res base Hin Hname)
      as (f & kind & _ & ->).
    by eexists.
  - split; [rewrite Hname; apply Message_not_MessageQueue|].
    destruct (getMessages_body_Message service m res base Hin Hname)
      as (f & kind & _ & ->).
    by eexists.
Qed.

(** C8: a method whose name ends neither in ["Message"] nor in
    ["MessageQueue"] gives no descriptor: its round of the loop leaves
    the result as it is (and does not panic), so the enumeration is the
    one of the method set without it.  [getMessages] has no access to the
    log: nothing is reported. *)
Theorem unmatched_member_skipped (service : Service) (m : Method)
    (before after : list Method) (res : list serviceMessage) :
  ¬ (go "Message" `suffix_of` Name m) →
  ¬ (go "MessageQueue" `suffix_of` Name m) →
  getMessages_body service m res = Some res
  ∧ getMessages_loop service (before ++ m :: after) res
    = getMessages_loop service (before ++ after) res.
Proof.
  intros H1 H2.
  assert (∀ r, getMessages_body service m r = Some r) as Hskip.
  { intros r. apply getMessages_body_skip.
    - destruct (strings.HasSuffix (Name m) (go "Message")) eqn:H; [|done].
      by apply HasSuffix_iff in H.
    - destruct (strings.HasSuffix (Name m) (go "MessageQueue")) eqn:H; [|done].
      by apply HasSuffix_iff in H. }
  split; [apply Hskip|]. rewrite !getMessages_loop_app.
  destruct (getMessages_loop service before res) as [r|]; simpl; [|done].
  by rewrite Hskip.
Qed.

(** ** A batch of registrations *)

Section batch.
Variables (c : Context) (conn : EncodedConn).

Lemma sub_attempt subject x w :
  sub c conn subject x w = attempt c conn (SubscribeCall subject x) w.
Proof. reflexivity. Qed.

Lemma qsub_attempt queue subject x w :
  qsub c conn queue subject x w = attempt c conn (QueueSubscribeCall subject queue x) w.
Proof. reflexivity. Qed.

Lemma attempt_failure call w e :
  subscribe_err conn (calls w) call = Some e →
  attempt c conn call w
  = {| calls := calls w ++ [call]; logged := logged w ++ [e];
       goroutines := goroutines w; unsubscribed := unsubscribed w;
       cancelled := cancelled w |}.
Proof. intros H. unfold attempt, transport_call. by rewrite H. Qed.

Lemma attempt_success call w :
  subscribe_err conn (calls w) call = None →
  attempt c conn call w
  = {| calls := calls w ++ [call]; logged := logged w;
       goroutines := goroutines w ++ [Spec.watcher c conn (length (calls w))];
       unsubscribed := unsubscribed w; cancelled := cancelled w |}.
Proof. intros H. unfold attempt, transport_call. by rewrite H. Qed.

(** What a batch of attempts does to the world. *)
Lemma attempts_batch cs w :
  foldl (λ w call, attempt c conn call w) w cs
  = {| calls := calls w ++ cs;
       logged := logged w ++ Spec.batch_errors conn (calls w) cs;
       goroutines := goroutines w ++ Spec.batch_watchers c conn (calls w) cs;
       unsubscribed := unsubscribed w; cancelled := cancelled w |}.
Proof.
  revert w. induction cs as [|call cs IH]; intros w; simpl.
  - rewrite !app_nil_r. by destruct w.
  - rewrite IH.
    destruct (subscribe_err conn (calls w) call) as [e|] eqn:Herr.
    + rewrite (attempt_failure _ _ _ Herr). simpl.
      by rewrite <- !app_assoc.
    + rewrite (attempt_success _ _ Herr). simpl.
      by rewrite <- !app_assoc.
Qed.

(** The attempt at position [i] of a batch is answered on the history
    extended with the calls before it. *)
Lemma batch_errors_elem history cs i call e :
  cs !! i = Some call →
  subscribe_err conn (history ++ take i cs) call = Some e →
  e ∈ Spec.batch_errors conn history cs.
Proof.
  revert history i. induction cs as [|c0 cs IH]; intros history i Hi He; [done|].
  destruct i as [|i]; simpl in *.
  - injection Hi as ->. rewrite app_nil_r in He. rewrite He. by left.
  - assert (e ∈ Spec.batch_errors conn (history ++ [c0]) cs) as Hin.
    { apply (IH _ i Hi). by rewrite <- app_assoc. }
    destruct (subscribe_err conn history c0); [by right|done].
Qed.

Lemma batch_watchers_elem history cs i call :
  cs !! i = Some call →
  subscribe_err conn (history ++ take i cs) call = None →
  Spec.watcher c conn (length history + i) ∈ Spec.batch_watchers c conn history cs.
Proof.
  revert history i. induction cs as [|c0 cs IH]; intros history i Hi He; [done|].
  destruct i as [|i]; simpl in *.
  - injection Hi as ->. rewrite app_nil_r in He. rewrite He, Nat.add_0_r. by left.
  - assert (Spec.watcher c conn (length history + S i)
            ∈ Spec.batch_watchers c conn (history ++ [c0]) cs) as Hin.
    { replace (length history + S i)%nat with (length (history ++ [c0]) + i)%nat
        by (rewrite length_app; simpl; lia).
      apply (IH _ i Hi). by rewrite <- app_assoc. }
    destruct (subscribe_err conn history c0); [done|by right].
Qed.

(** Every watcher of a batch belongs to a call of the batch that
    succeeded. *)
Lemma batch_watchers_inv history cs g :
  g ∈ Spec.batch_watchers c conn history cs →
  ∃ i call, cs !! i = Some call
            ∧ subscribe_err conn (history ++ take i cs) call = None
            ∧ g = Spec.watcher c conn (length history + i).
Proof.
  revert history. induction cs as [|c0 cs IH]; intros history Hg; simpl in Hg.
  { by apply elem_of_nil in Hg. }
  assert (g ∈ Spec.batch_watchers c conn (history ++ [c0]) cs →
          ∃ i call, (c0 :: cs) !! i = Some call
            ∧ subscribe_err conn (history ++ take i (c0 :: cs)) call = None
            ∧ g = Spec.watcher c conn (length history + i)) as Hrec.
  { intros (i & call & Hi & He & ->)%IH. exists (S i), call. simpl.
    split; [done|]. rewrite <- app_assoc in He. split; [done|].
    f_equal. rewrite length_app. simpl. lia. }
  destruct (subscribe_err conn history c0) eqn:Herr; [by apply Hrec|].
  apply elem_of_cons in Hg as [->|Hg]; [|by apply Hrec].
  exists 0%nat, c0. simpl. rewrite app_nil_r, Nat.add_0_r. done.
Qed.

Lemma batch_watchers_length history cs :
  (length (Spec.batch_watchers c conn history cs)
   + length (Spec.batch_errors conn history cs) = length cs)%nat.
Proof.
  revert history. induction cs as [|c0 cs IH]; intros history; simpl; [done|].
  specialize (IH (history ++ [c0])).
  destruct (subscribe_err conn history c0); simpl; lia.
Qed.

End batch.

Lemma Subscribe_range_attempts (s : Subscriber) (messages : list serviceMessage) (w : World) :
  Subscribe_range s messages w
  = foldl (λ w call, attempt (ctx s) (econn s) call w) w (Spec.registration <$> messages).
Proof.
  revert w. induction messages as [|v rest IH]; intros w; [done|].
  rewrite fmap_cons. cbn [foldl Subscribe_range]. rewrite <- IH.
  unfold Spec.registration, fmt.Sprintf_s_s. by destruct (queue v).
Qed.

Lemma SubscribeFunc_range_attempts (s : Subscriber) (entries : list (gostring * callable))
    (queueName : gostring) (w : World) :
  SubscribeFunc_range s entries queueName w
  = foldl (λ w call, attempt (ctx s) (econn s) call w) w
      (Spec.entryRegistration queueName <$> entries).
Proof.
  revert w. induction entries as [|[sb m] rest IH]; intros w; [done|].
  rewrite fmap_cons. cbn [foldl SubscribeFunc_range]. rewrite <- IH.
  unfold Spec.entryRegistration. change (go "") with (@nil ascii).
  by case_bool_decide.
Qed.

(** [getMessages] does not panic. *)
Lemma getMessages_loop_total (service : Service) (ms : list Method) (res : list serviceMessage) :
  ms ⊆ Methods service → is_Some (getMessages_loop service ms res).
Proof.
  revert res. induction ms as [|m ms IH]; intros res Hsub; simpl; [by eexists|].
  assert (m ∈ Methods service) as Hm by (apply Hsub; by left).
  assert (ms ⊆ Methods service) as Hms by (intros x Hx; apply Hsub; by right).
  destruct (strings.HasSuffix (Name m) (go "Message")
            || strings.HasSuffix (Name m) (go "MessageQueue")) eqn:Hsuf.
  - destruct (getMessages_body_match service m res Hm Hsuf) as (f & kind & _ & _ & ->).
    simpl. by apply IH.
  - apply orb_false_iff in Hsuf as [H1 H2].
    rewrite (getMessages_body_skip service m res H1 H2). simpl. by apply IH.
Qed.

Lemma getMessages_total (service : Service) : is_Some (getMessages service).
Proof. by apply getMessages_loop_total. Qed.

(** ** The claims on descriptors and on registration *)

(** The label of a type string that names a type. *)
Section type_label.
Implicit Types (s ts p : gostring) (b c : ascii).

Lemma Split_snoc s b c :
  b ≠ c →
  ∃ ps p, strings.Split s c = ps ++ [p] ∧ strings.Split (s ++ [b]) c = ps ++ [p ++ [b]].
Proof.
  intros Hbc. induction s as [|a s (ps & p & Hs & Hsb)]; simpl.
  - exists [], []. split; [done|]. by destruct (Ascii.eqb_spec b c).
  - rewrite Hs, Hsb. destruct (Ascii.eqb a c).
    + by exists ([] :: ps), p.
    + destruct ps as [|p0 ps]; simpl.
      * by exists [], (a :: p).
      * by exists ((a :: p0) :: ps), p.
Qed.

Lemma stripNamespace_subseteq s : Spec.stripNamespace s ⊆ s.
Proof.
  destruct (last_slash s) as [Hno | (ns & q & -> & Hq)].
  - by rewrite stripNamespace_absent.
  - rewrite stripNamespace_last by done. intros b Hb.
    apply elem_of_app. right. by right.
Qed.

Lemma stripped_last ts b :
  last ts = Some b →
  last (if Spec.slashInside ts then Spec.stripNamespace ts else ts) = Some b.
Proof.
  intros Hlast. destruct (Spec.slashInside ts) eqn:Hin; [|done].
  apply slashInside_iff in Hin as (ns & q & -> & _ & Hq & Hno).
  rewrite stripNamespace_last by done.
  rewrite last_app, last_cons in Hlast.
  apply last_is_Some in Hq as [y Hy]. by rewrite Hy in Hlast |- *.
Qed.

(** A type string that names a type has a label that is not empty. *)
Lemma polishKindName_nonempty ts :
  Spec.namesType ts → ∃ k, polishKindName ts 1 0 = Some k ∧ k ≠ [].
Proof.
  intros (b & Hlast & Hb).
  rewrite !not_elem_of_cons in Hb. destruct Hb as (Hdot & Hopen & Hclose & Hstar & _).
  eexists. split; [by rewrite polishKindName_label, label_1_0|].
  apply stripped_last, last_Some in Hlast as [s' ->].
  unfold Spec.bareTypeName, Spec.removeDecoration.
  rewrite filter_app, filter_cons, decide_True, filter_nil.
  2:{ unfold Spec.decoration. rewrite !not_elem_of_cons.
      repeat split; auto using not_elem_of_nil. }
  destruct (Split_snoc (filter (λ b0, b0 ∉ Spec.decoration) s') b "." Hdot)
    as (ps & p & _ & ->).
  rewrite last_snoc. simpl. by destruct p.
Qed.

(** The label of an ASCII type string is ASCII. *)
Lemma polishKindName_ascii ts k :
  strings.isASCII ts = true → polishKindName ts 1 0 = Some k → strings.isASCII k = true.
Proof.
  intros Hts. rewrite polishKindName_label, label_1_0. intros [= <-].
  apply (isASCII_subseteq _ ts); [|done].
  intros b [Hb _]%bareTypeName_clean.
  destruct (Spec.slashInside ts); [by apply stripNamespace_subseteq|done].
Qed.

End type_label.

(** C4, amended: of a value whose type string names a type (as the type
    strings of Go do), a method whose name ends in ["Message"] or in
    ["MessageQueue"] gives a descriptor whose [serviceName] and
    [messageName] are lower-case (lower-casing leaves them as they are,
    and they have no byte in 'A'..'Z' when the names are ASCII), whose
    [serviceName] is not empty, and whose [messageName] is empty exactly
    when the method is named ["Message"] or ["MessageQueue"]; when the
    descriptor is queued, [Subscribe] calls the transport with the queue
    name [serviceName_messageName].  Of the Unicode tables of Go the
    theorem uses the two facts of [lowering]. *)
Theorem descriptor_names (service : Service) (m : Method) (res : list serviceMessage) :
  lowering unicodeLower →
  Spec.namesType (TypeString service) →
  m ∈ Methods service →
  go "Message" `suffix_of` Name m ∨ go "MessageQueue" `suffix_of` Name m →
  ∃ sm, getMessages_body service m res = Some (res ++ [sm])
    ∧ Spec.lowerCase unicodeLower (serviceName sm)
    ∧ Spec.lowerCase unicodeLower (messageName sm)
    ∧ (strings.isASCII (TypeString service) = true → Spec.isLower (serviceName sm) = true)
    ∧ (strings.isASCII (Name m) = true → Spec.isLower (messageName sm) = true)
    ∧ serviceName sm ≠ []
    ∧ (messageName sm = [] ↔ Name m = go "Message" ∨ Name m = go "MessageQueue")
    ∧ (queue sm = true →
       ∀ (s : Subscriber) (w : World),
         calls (Subscribe_range s [sm] w)
         = calls w ++ [QueueSubscribeCall (serviceName sm ++ go "." ++ messageName sm)
                         (serviceName sm ++ go "_" ++ messageName sm) (message sm)]).
Proof.
  intros Hlow Htype Hin Hsuf.
  assert (∃ base q f kind,
    (Name m = base ++ go "Message" ∧ q = false
     ∨ Name m = base ++ go "MessageQueue" ∧ q = true)
    ∧ polishKindName (TypeString service) 1 0 = Some kind
    ∧ getMessages_body service m res
      = Some (res ++ [ {| queue := q; serviceName := strings.ToLower unicodeLower kind;
                          messageName := strings.ToLower unicodeLower base; message := f |} ]))
    as (base & q & f & kind & Hname & Hk & ->).
  { destruct Hsuf as [[base Hb]|[base Hb]].
    - destruct (getMessages_body_Message service m res base Hin Hb) as (f & kind & ? & ?).
      exists base, false, f, kind. auto.
    - destruct (getMessages_body_MessageQueue service m res base Hin Hb) as (f & kind & ? & ?).
      exists base, true, f, kind. auto. }
  eexists. split; [done|]. cbn [queue serviceName messageName message].
  split; [by apply ToLower_lowerCase|]. split; [by apply ToLower_lowerCase|].
  split; [|split; [|split; [|split]]].
  - intros Hascii. apply ToLower_isLower. by eapply polishKindName_ascii.
  - intros Hascii. apply ToLower_isLower.
    apply (isASCII_subseteq _ (Name m)); [|done].
    intros b Hb. destruct Hname as [[-> _]|[-> _]]; apply elem_of_app; by left.
  - rewrite ToLower_nil_iff by done.
    destruct (polishKindName_nonempty _ Htype) as (k & Hk' & Hne). congruence.
  - rewrite ToLower_nil_iff by done. split.
    + intros ->. destruct Hname as [[-> _]|[-> _]]; auto.
    + intros Hcase. destruct Hname as [[Hb _]|[Hb _]]; rewrite Hb in Hcase.
      * destruct Hcase as [Hc|Hc].
        -- by apply (app_inv_tail _ base []) in Hc.
        -- pose proof (Message_not_MessageQueue base) as Hf.
           rewrite Hc in Hf. vm_compute in Hf. discriminate Hf.
      * destruct Hcase as [Hc|Hc].
        -- pose proof (MessageQueue_not_Message base) as Hf.
           rewrite Hc in Hf. vm_compute in Hf. discriminate Hf.
        -- by apply (app_inv_tail _ base []) in Hc.
  - intros -> s w. rewrite Subscribe_range_attempts, attempts_batch. done.
Qed.

(** C5: [Subscribe] does not panic, and the calls that the transport
    receives are, in the order of the enumeration, one call for each
    descriptor: under the subject [serviceName.messageName], a queue
    subscription with the queue name [serviceName_messageName] when the
    descriptor is queued and a plain subscription otherwise. *)
Theorem Subscribe_registers_descriptors (s : Subscriber) (service : Service) (w : World) :
  ∃ messages w',
    getMessages service = Some messages
    ∧ Subscribe s service w = Some w'
    ∧ calls w' = calls w ++ (Spec.registration <$> messages)
    ∧ ∀ v, v ∈ messages →
        Spec.registration v
        = if queue v
          then QueueSubscribeCall (serviceName v ++ go "." ++ messageName v)
                 (serviceName v ++ go "_" ++ messageName v) (message v)
          else SubscribeCall (serviceName v ++ go "." ++ messageName v) (message v).
Proof.
  destruct (getMessages_total service) as [messages Hm].
  exists messages. eexists. split; [done|].
  unfold Subscribe. rewrite Hm. simpl. split; [done|].
  rewrite Subscribe_range_attempts, attempts_batch. done.
Qed.

Example Subscribe_someService :
  calls <$> Subscribe (NewSubscriber 0%nat reliable) someService init
  = Some [ QueueSubscribeCall (go "someservice.repaction") (go "someservice_repaction") 8%nat;
           SubscribeCall (go "someservice.subaction") 9%nat ].
Proof. reflexivity. Qed.

Lemma SubscribeFunc_in_calls (s : Subscriber) (order : list (gostring * callable))
    (queue : list gostring) (w : World) :
  calls (SubscribeFunc_in s order queue w)
  = calls w ++ (Spec.entryRegistration (default [] (head queue)) <$> order).
Proof.
  unfold SubscribeFunc_in. rewrite SubscribeFunc_range_attempts, attempts_batch.
  by destruct queue.
Qed.

(** C6: a call of [SubscribeFunc] always has an outcome, and in each
    outcome the transport has received one call for each entry of the
    map, in the order of the iteration: with a first queue name that is
    not empty, a queue subscription of the entry's subject and callback
    under that one queue name; with no queue name, or an empty one, a
    plain subscription of the entry's subject and callback. *)
Theorem SubscribeFunc_shared_queue (s : Subscriber) (messages : gmap gostring callable)
    (queue : list gostring) (w : World) :
  (∃ w', SubscribeFunc s messages queue w w')
  ∧ ∀ w', SubscribeFunc s messages queue w w' →
      ∃ order, order ≡ₚ map_to_list messages
        ∧ (∀ q rest, queue = q :: rest → q ≠ [] →
             calls w' = calls w ++ ((λ e, QueueSubscribeCall e.1 q e.2) <$> order))
        ∧ (queue = [] ∨ (∃ rest, queue = [] :: rest) →
             calls w' = calls w ++ ((λ e, SubscribeCall e.1 e.2) <$> order)).
Proof.
  split.
  - exists (SubscribeFunc_in s (map_to_list messages) queue w).
    by exists (map_to_list messages).
  - intros w' (order & Hperm & ->). exists order. split; [done|].
    rewrite SubscribeFunc_in_calls. split.
    + intros q rest -> Hq. simpl. f_equal. apply list_fmap_ext. intros _ e _.
      unfold Spec.entryRegistration. by rewrite bool_decide_eq_false_2.
    + intros Hempty. f_equal. apply list_fmap_ext. intros _ e _.
      by destruct Hempty as [->|[rest ->]].
Qed.

Example SubscribeFunc_workers :
  calls (SubscribeFunc_in (NewSubscriber 0%nat reliable)
           [(go "jobs.new", 4%nat); (go "jobs.done", 5%nat)] [go "workers"; go "ignored"] init)
  = [ QueueSubscribeCall (go "jobs.new") (go "workers") 4%nat;
      QueueSubscribeCall (go "jobs.done") (go "workers") 5%nat ].
Proof. reflexivity. Qed.

(** C10: when [SubscribeFunc] gets two queue names or more, the call has
    an outcome, and in each outcome the first name alone decides: the
    transport has received one call for each entry of the map, a queue
    subscription under the first name when that name is not empty and a
    plain subscription when it is empty, whatever the other names are;
    and the outcomes of the call are the outcomes of the call with the
    first name alone. *)
Theorem SubscribeFunc_first_queue_name (s : Subscriber) (messages : gmap gostring callable)
    (q q' : gostring) (rest : list gostring) (w : World) :
  (∃ w', SubscribeFunc s messages (q :: q' :: rest) w w')
  ∧ (∀ w', SubscribeFunc s messages (q :: q' :: rest) w w'
           ↔ SubscribeFunc s messages [q] w w')
  ∧ ∀ w', SubscribeFunc s messages (q :: q' :: rest) w w' →
      ∃ order, order ≡ₚ map_to_list messages
        ∧ w' = SubscribeFunc_in s order [q] w
        ∧ (q ≠ [] →
           calls w' = calls w ++ ((λ e, QueueSubscribeCall e.1 q e.2) <$> order))
        ∧ (q = [] →
           calls w' = calls w ++ ((λ e, SubscribeCall e.1 e.2) <$> order)).
Proof.
  split; [|split].
  - exists (SubscribeFunc_in s (map_to_list messages) (q :: q' :: rest) w).
    by exists (map_to_list messages).
  - done.
  - intros w' (order & Hperm & ->). exists order. split; [done|]. split; [done|].
    rewrite SubscribeFunc_in_calls. simpl. split.
    + intros Hq. f_equal. apply list_fmap_ext. intros _ e _.
      unfold Spec.entryRegistration. by rewrite bool_decide_eq_false_2.
    + by intros ->.
Qed.

(** C7: a call of [sub] or [qsub] that the transport answers with an
    error logs the error and returns: the transport has the call, no
    goroutine is started, nothing else changes.  In a batch, [Subscribe]
    does not panic and issues the call of every descriptor whatever the
    answers to the others are; a descriptor whose call fails has its
    error in the log and no goroutine for its call, and every descriptor
    whose call succeeds has its waiting goroutine. *)
Theorem subscribe_failure_is_local (s : Subscriber) (service : Service) (w : World) :
  (∀ c conn subject x e,
     subscribe_err conn (calls w) (SubscribeCall subject x) = Some e →
     sub c conn subject x w
     = {| calls := calls w ++ [SubscribeCall subject x]; logged := logged w ++ [e];
          goroutines := goroutines w; unsubscribed := unsubscribed w;
          cancelled := cancelled w |})
  ∧ (∀ c conn queue subject x e,
       subscribe_err conn (calls w) (QueueSubscribeCall subject queue x) = Some e →
       qsub c conn queue subject x w
       = {| calls := calls w ++ [QueueSubscribeCall subject queue x];
            logged := logged w ++ [e];
            goroutines := goroutines w; unsubscribed := unsubscribed w;
            cancelled := cancelled w |})
  ∧ ∃ messages w' started errs,
      getMessages service = Some messages
      ∧ Subscribe s service w = Some w'
      ∧ calls w' = calls w ++ (Spec.registration <$> messages)
      ∧ goroutines w' = goroutines w ++ started
      ∧ logged w' = logged w ++ errs
      ∧ unsubscribed w' = unsubscribed w ∧ cancelled w' = cancelled w
      ∧ ∀ i v, messages !! i = Some v →
          match subscribe_err (econn s)
                  (calls w ++ (Spec.registration <$> take i messages))
                  (Spec.registration v) with
          | Some e =>
              e ∈ errs
              ∧ ∀ g, g ∈ started → sub_id (g_sub g) ≠ (length (calls w) + i)%nat
          | None => Spec.watcher (ctx s) (econn s) (length (calls w) + i) ∈ started
          end.
Proof.
  split; [|split].
  - intros c conn subject x e He. rewrite sub_attempt. by apply attempt_failure.
  - intros c conn queue subject x e He. rewrite qsub_attempt. by apply attempt_failure.
  - destruct (getMessages_total service) as [messages Hm].
    exists messages. eexists. eexists. eexists. split; [done|].
    unfold Subscribe. rewrite Hm. simpl. split; [done|].
    rewrite Subscribe_range_attempts, attempts_batch. cbn [calls goroutines logged
      unsubscribed cancelled].
    do 5 (split; [done|]).
    intros i v Hi.
    assert ((Spec.registration <$> messages) !! i = Some (Spec.registration v)) as Hi'
      by (by rewrite list_lookup_fmap, Hi).
    rewrite fmap_take.
    destruct (subscribe_err _ _ _) as [e|] eqn:He.
    + split; [by eapply batch_errors_elem|].
      intros g (j & call & Hj & Hok & ->)%batch_watchers_inv. simpl.
      intros Heq. assert (j = i) as -> by lia.
      rewrite Hi' in Hj. injection Hj as <-. congruence.
    + by eapply batch_watchers_elem.
Qed.

Example Subscribe_refusing :
  Subscribe (NewSubscriber 0%nat refusing) someService init
  = Some {| calls := [ QueueSubscribeCall (go "someservice.repaction")
                         (go "someservice_repaction") 8%nat;
                       SubscribeCall (go "someservice.subaction") 9%nat ];
            logged := [go "nats: connection closed"];
            goroutines := [Spec.watcher 0%nat refusing 1];
            unsubscribed := []; cancelled := [] |}.
Proof. reflexivity. Qed.

(** ** Every world of a run is consistent *)

Lemma consistent_init : consistent init.
Proof.
  split; simpl; try done.
  - intros g Hg. by apply elem_of_nil in Hg.
  - apply NoDup_nil_2.
  - intros g Hg. by apply elem_of_nil in Hg.
Qed.

Lemma consistent_attempt (c : Context) (conn : EncodedConn) (call : Call) (w : World) :
  consistent w → consistent (attempt c conn call w).
Proof.
  intros [Hissued Hdistinct Hunsub Hexited].
  destruct (subscribe_err conn (calls w) call) as [e|] eqn:Herr.
  - rewrite (attempt_failure _ _ _ _ _ Herr). split; simpl; try done.
    intros g Hg. rewrite length_app. specialize (Hissued g Hg). lia.
  - rewrite (attempt_success _ _ _ _ Herr). split; simpl.
    + intros g [Hg | ->%list_elem_of_singleton]%elem_of_app; rewrite length_app; simpl.
      * specialize (Hissued g Hg). lia.
      * unfold gid. simpl. lia.
    + rewrite fmap_app. apply NoDup_app. split; [done|]. split; [|apply NoDup_singleton].
      intros n (g & -> & Hg)%list_elem_of_fmap Hn. apply list_elem_of_singleton in Hn.
      specialize (Hissued g Hg). unfold gid in *. simpl in Hn. lia.
    + rewrite filter_app, filter_cons, decide_False by done.
      rewrite filter_nil, app_nil_r. done.
    + intros g [Hg | ->%list_elem_of_singleton]%elem_of_app; [by apply Hexited|done].
Qed.

Lemma consistent_attempts (c : Context) (conn : EncodedConn) (cs : list Call) (w : World) :
  consistent w → consistent (foldl (λ w call, attempt c conn call w) w cs).
Proof.
  revert w. induction cs as [|call cs IH]; intros w Hw; [done|].
  simpl. apply IH. by apply consistent_attempt.
Qed.

Lemma consistent_cancel (c : Context) (w : World) : consistent w → consistent (cancel c w).
Proof.
  intros [Hissued Hdistinct Hunsub Hexited]. split; simpl; try done.
  intros g Hg Hs. right. by apply Hexited.
Qed.

(** The goroutine at an index, and the list with that goroutine
    replaced. *)
Lemma lookup_split {A} (l : list A) (i : nat) (x : A) :
  l !! i = Some x →
  ∃ l1 l2, l = l1 ++ x :: l2 ∧ length l1 = i ∧ ∀ y, <[i:=y]> l = l1 ++ y :: l2.
Proof.
  intros Hi. exists (take i l), (drop (S i) l).
  pose proof (lookup_lt_Some _ _ _ Hi) as Hlt.
  split; [by rewrite take_drop_middle|]. split; [rewrite length_take; lia|].
  intros y. by apply insert_take_drop.
Qed.

Lemma unsubscribe_and_exit_fields (i : nat) (g : Goroutine) (w : World) :
  let w' := unsubscribe_and_exit i g w in
  calls w' = calls w
  ∧ goroutines w'
    = <[i := {| g_ctx := g_ctx g; g_sub := g_sub g; g_state := Exited |}]> (goroutines w)
  ∧ unsubscribed w' = unsubscribed w ++ [gid g]
  ∧ cancelled w' = cancelled w.
Proof.
  unfold unsubscribe_and_exit.
  by destruct (unsubscribe_err (sub_conn (g_sub g)) (sub_id (g_sub g))).
Qed.

(** Either the scheduler's choice changes nothing, or a waiting
    goroutine whose context is done unsubscribes its handle and exits. *)
Lemma wake_cases (i : nat) (w : World) :
  wake i w = w
  ∨ ∃ g l1 l2,
      goroutines w = l1 ++ g :: l2 ∧ length l1 = i
      ∧ g_state g = Waiting ∧ g_ctx g ∈ cancelled w
      ∧ calls (wake i w) = calls w
      ∧ goroutines (wake i w)
        = l1 ++ {| g_ctx := g_ctx g; g_sub := g_sub g; g_state := Exited |} :: l2
      ∧ unsubscribed (wake i w) = unsubscribed w ++ [gid g]
      ∧ cancelled (wake i w) = cancelled w.
Proof.
  unfold wake. destruct (goroutines w !! i) as [g|] eqn:Hi; [|by left].
  destruct (g_state g) eqn:Hs; [|by left].
  case_bool_decide as Hc; [|by left]. right.
  destruct (lookup_split _ _ _ Hi) as (l1 & l2 & Hgs & Hlen & Hins).
  destruct (unsubscribe_and_exit_fields i g w) as (H1 & H2 & H3 & H4).
  exists g, l1, l2. rewrite H1, H2, H3, H4, Hins. done.
Qed.

Lemma consistent_wake (i : nat) (w : World) : consistent w → consistent (wake i w).
Proof.
  intros Hw.
  destruct (wake_cases i w) as [-> | (g & l1 & l2 & Hgs & _ & Hs & Hc & H1 & H2 & H3 & H4)];
    [done|].
  destruct Hw as [Hissued Hdistinct Hunsub Hexited].
  rewrite Hgs in *. split; rewrite ?H1, ?H2, ?H3, ?H4.
  - intros g' Hg'. apply elem_of_app in Hg' as [Hg'|Hg'].
    + apply Hissued, elem_of_app. by left.
    + apply elem_of_cons in Hg' as [->|Hg'].
      * change (gid _) with (gid g). apply Hissued, elem_of_app. right. by left.
      * apply Hissued, elem_of_app. right. by right.
  - rewrite fmap_app, fmap_cons in *. done.
  - rewrite Hunsub. rewrite !filter_app, !filter_cons.
    rewrite decide_False by (rewrite Hs; done). rewrite decide_True by done.
    rewrite !fmap_app, fmap_cons. unfold gid at 5. simpl.
    rewrite <- app_assoc. apply Permutation_app_head.
    rewrite <- Permutation_cons_append. done.
  - intros g' Hg' Hs'.
    apply elem_of_app in Hg' as [Hg'|Hg']; [apply Hexited; [apply elem_of_app; by left|done]|].
    apply elem_of_cons in Hg' as [->|Hg']; [done|].
    apply Hexited; [apply elem_of_app; right; by right|done].
Qed.

Lemma consistent_exec (op : Op) (w w' : World) :
  exec op w w' → consistent w → consistent w'.
Proof.
  intros Hexec Hw. destruct Hexec as [s service w w' H | s messages queue w w' H | c w | i w].
  - unfold Subscribe in H. destruct (getMessages service) as [messages|]; [|done].
    simpl in H. injection H as <-.
    rewrite Subscribe_range_attempts. by apply consistent_attempts.
  - destruct H as (order & _ & ->). unfold SubscribeFunc_in.
    rewrite SubscribeFunc_range_attempts. by apply consistent_attempts.
  - by apply consistent_cancel.
  - by apply consistent_wake.
Qed.

Lemma reachable_consistent (w : World) : reachable w → consistent w.
Proof.
  induction 1 as [|op w w' _ IH Hexec]; [apply consistent_init|].
  by eapply consistent_exec.
Qed.

(** ** Handles, attempts and the scheduler *)

Section handles.
Context {A B : Type} (f : A → B).

Lemma NoDup_fmap_filter (P : A → Prop) `{!∀ x, Decision (P x)} (l : list A) :
  NoDup (f <$> l) → NoDup (f <$> filter P l).
Proof.
  induction l as [|x l IH]; [done|].
  rewrite fmap_cons, filter_cons, NoDup_cons. intros [Hx Hl].
  destruct (decide (P x)); [|by apply IH].
  rewrite fmap_cons, NoDup_cons. split; [|by apply IH].
  intros (y & Hy & [_ Hin]%list_elem_of_filter)%list_elem_of_fmap.
  apply Hx, list_elem_of_fmap. eauto.
Qed.

Lemma NoDup_fmap_inj_on (l : list A) (x y : A) :
  NoDup (f <$> l) → x ∈ l → y ∈ l → f x = f y → x = y.
Proof.
  induction l as [|a l IH]; [by intros _ ?%elem_of_nil|].
  rewrite fmap_cons, NoDup_cons. intros [Ha Hl] Hx Hy Hxy.
  apply elem_of_cons in Hx as [->|Hx]; apply elem_of_cons in Hy as [->|Hy]; auto.
  - exfalso. apply Ha. rewrite Hxy. apply list_elem_of_fmap. eauto.
  - exfalso. apply Ha. rewrite <- Hxy. apply list_elem_of_fmap. eauto.
Qed.

Lemma filter_filter_all (P Q : A → Prop) `{!∀ x, Decision (P x)} `{!∀ x, Decision (Q x)}
    (l : list A) :
  (∀ x, x ∈ l → P x → Q x) → filter P (filter Q l) = filter P l.
Proof.
  induction l as [|x l IH]; intros Himp; [done|].
  assert (filter P (filter Q l) = filter P l) as IH'
    by (apply IH; intros y Hy; apply Himp; by right).
  rewrite (filter_cons Q). destruct (decide (Q x)) as [HQ|HQ].
  - rewrite !filter_cons. by rewrite IH'.
  - rewrite filter_cons, IH'. destruct (decide (P x)) as [HP|]; [|done].
    exfalso. apply HQ, Himp; [by left|done].
Qed.

End handles.

(** Among the handles of the goroutines of [l], those registered under
    [c] are the handles of the goroutines of [l] whose context is [c]. *)
Lemma filter_registrations (gs l : list Goroutine) (c : Context) :
  NoDup (gid <$> gs) → (∀ g, g ∈ l → g ∈ gs) →
  filter (λ n, n ∈ gid <$> filter (λ g, g_ctx g = c) gs) (gid <$> l)
  = gid <$> filter (λ g, g_ctx g = c) l.
Proof.
  intros Hnd. induction l as [|a l IH]; intros Hl; [done|].
  assert (a ∈ gs) as Ha by (apply Hl; by left).
  rewrite fmap_cons, !filter_cons, IH by (intros g Hg; apply Hl; by right).
  destruct (decide (g_ctx a = c)) as [Hc|Hc].
  - rewrite decide_True; [done|]. apply list_elem_of_fmap. exists a. split; [done|].
    by apply list_elem_of_filter.
  - rewrite decide_False; [done|].
    intros (g' & Heq & [Hc' Hg']%list_elem_of_filter)%list_elem_of_fmap.
    apply Hc. by rewrite (NoDup_fmap_inj_on gid gs a g' Hnd Ha Hg' Heq).
Qed.

(** The attempts on the handles of [c] are the handles of the goroutines
    of [c] that are over. *)
Lemma attempts_exited (c : Context) (w : World) :
  consistent w →
  attempts c w
  ≡ₚ gid <$> filter (λ g, g_ctx g = c) (filter (λ g, g_state g = Exited) (goroutines w)).
Proof.
  intros [_ Hdistinct Hunsub _]. unfold attempts, registrations.
  rewrite Hunsub. rewrite filter_registrations; [done|done|].
  by intros g [_ Hg]%list_elem_of_filter.
Qed.

Lemma wake_cancelled (i : nat) (w : World) : cancelled (wake i w) = cancelled w.
Proof. by destruct (wake_cases i w) as [-> | (g & l1 & l2 & _ & _ & _ & _ & _ & _ & _ & ->)]. Qed.

Lemma wake_length (i : nat) (w : World) :
  length (goroutines (wake i w)) = length (goroutines w).
Proof.
  destruct (wake_cases i w) as [-> | (g & l1 & l2 & -> & _ & _ & _ & _ & -> & _)]; [done|].
  by rewrite !length_app.
Qed.

Lemma registrations_wake (c : Context) (i : nat) (w : World) :
  registrations c (wake i w) = registrations c w.
Proof.
  destruct (wake_cases i w) as [-> | (g & l1 & l2 & Hgs & _ & _ & _ & _ & Hgs' & _)]; [done|].
  unfold registrations. rewrite Hgs, Hgs', !filter_app, !filter_cons. simpl.
  destruct (decide (g_ctx g = c)); [|done].
  by rewrite !fmap_app, !fmap_cons.
Qed.

Lemma wake_lookup (j i : nat) (w : World) (g' : Goroutine) :
  goroutines (wake j w) !! i = Some g' →
  goroutines w !! i = Some g'
  ∨ (i = j ∧ g_state g' = Exited
     ∧ ∃ g, goroutines w !! i = Some g ∧ g_ctx g = g_ctx g' ∧ g_ctx g ∈ cancelled w).
Proof.
  destruct (wake_cases j w)
    as [-> | (g & l1 & l2 & Hgs & Hlen & _ & Hc & _ & Hgs' & _)]; [by left|].
  rewrite Hgs, Hgs'. intros Hi.
  destruct (decide (i = j)) as [->|Hne].
  - right. split; [done|]. subst j.
    rewrite list_lookup_middle in Hi by done. injection Hi as <-.
    split; [done|]. exists g. by rewrite list_lookup_middle.
  - left. subst j. destruct (decide (i < length l1)%nat).
    + rewrite lookup_app_l in * by done. done.
    + rewrite lookup_app_r in * by lia.
      destruct (i - length l1)%nat as [|k] eqn:Hk; [lia|]. done.
Qed.

Lemma settled_wake (c : Context) (j i : nat) (w : World) :
  settled c w i → settled c (wake j w) i.
Proof.
  intros Hs g' Hi Hc.
  destruct (wake_lookup j i w g' Hi) as [Hold | (_ & Hex & _)]; [by apply Hs|done].
Qed.

Lemma settled_wakes (c : Context) (schedule : list nat) (i : nat) (w : World) :
  settled c w i → settled c (wakes schedule w) i.
Proof.
  revert w. induction schedule as [|j rest IH]; intros w Hs; [done|].
  apply IH. by apply settled_wake.
Qed.

Lemma wake_settles (c : Context) (i : nat) (w : World) :
  c ∈ cancelled w → settled c (wake i w) i.
Proof.
  intros Hc g' Hi Hctx. unfold wake in *.
  destruct (goroutines w !! i) as [g|] eqn:Hg; [|by rewrite Hg in Hi].
  destruct (g_state g) eqn:Hs.
  - case_bool_decide as Hdone.
    + destruct (unsubscribe_and_exit_fields i g w) as (_ & Hgs & _). rewrite Hgs in Hi.
      rewrite list_lookup_insert_eq in Hi by (by eapply lookup_lt_Some).
      by injection Hi as <-.
    + rewrite Hg in Hi. injection Hi as <-. by rewrite Hctx in Hdone.
  - rewrite Hg in Hi. by injection Hi as <-.
Qed.

Lemma wakes_cancelled (schedule : list nat) (w : World) :
  cancelled (wakes schedule w) = cancelled w.
Proof.
  revert w. induction schedule as [|j rest IH]; intros w; [done|].
  cbn. fold (wakes rest (wake j w)). by rewrite IH, wake_cancelled.
Qed.

Lemma wakes_length (schedule : list nat) (w : World) :
  length (goroutines (wakes schedule w)) = length (goroutines w).
Proof.
  revert w. induction schedule as [|j rest IH]; intros w; [done|].
  cbn. fold (wakes rest (wake j w)). by rewrite IH, wake_length.
Qed.

Lemma registrations_wakes (c : Context) (schedule : list nat) (w : World) :
  registrations c (wakes schedule w) = registrations c w.
Proof.
  revert w. induction schedule as [|j rest IH]; intros w; [done|].
  cbn. fold (wakes rest (wake j w)). by rewrite IH, registrations_wake.
Qed.

Lemma reachable_wakes (schedule : list nat) (w : World) :
  reachable w → reachable (wakes schedule w).
Proof.
  revert w. induction schedule as [|j rest IH]; intros w Hw; [done|].
  cbn. fold (wakes rest (wake j w)). apply IH.
  eapply reachable_exec; [done|apply exec_Wake].
Qed.

(** Once every goroutine has been run after the cancellation, those of
    the cancelled context are over. *)
Lemma wakes_settle (c : Context) (schedule : list nat) (i : nat) (w : World) :
  c ∈ cancelled w → i ∈ schedule → settled c (wakes schedule w) i.
Proof.
  revert w. induction schedule as [|j rest IH]; intros w Hc Hi.
  { by apply elem_of_nil in Hi. }
  cbn. fold (wakes rest (wake j w)).
  apply elem_of_cons in Hi as [->|Hi].
  - by apply settled_wakes, wake_settles.
  - apply IH; [by rewrite wake_cancelled|done].
Qed.

(** A registration that succeeds adds its handle to those of its
    context, and one that fails adds none. *)
Lemma registrations_attempt (c : Context) (conn : EncodedConn) (call : Call) (w : World) :
  registrations c (attempt c conn call w)
  = registrations c w
    ++ match subscribe_err conn (calls w) call with
       | Some _ => []
       | None => [length (calls w)]
       end.
Proof.
  unfold registrations.
  destruct (subscribe_err conn (calls w) call) as [e|] eqn:Herr.
  - rewrite (attempt_failure _ _ _ _ _ Herr). simpl. by rewrite app_nil_r.
  - rewrite (attempt_success _ _ _ _ Herr). simpl.
    rewrite filter_app, filter_cons, decide_True by done. by rewrite fmap_app.
Qed.

(** ** The claim on cancellation *)

(** In every world of every run the handles of the goroutines of a
    context are distinct and the unsubscribe attempts on them are among
    them, each at most once, none before the cancellation; after it, when
    each goroutine has had its turn, the attempts are these handles. *)
Lemma goroutines_unsubscribe_once (c : Context) (w : World) :
  reachable w →
  NoDup (registrations c w)
  ∧ attempts c w ⊆+ registrations c w
  ∧ (c ∉ cancelled w → attempts c w = [])
  ∧ (c ∈ cancelled w →
     ∀ schedule, (∀ i, (i < length (goroutines w))%nat → i ∈ schedule) →
       reachable (wakes schedule w)
       ∧ registrations c (wakes schedule w) = registrations c w
       ∧ attempts c (wakes schedule w) ≡ₚ registrations c w
       ∧ length (attempts c (wakes schedule w)) = length (registrations c w)).
Proof.
  intros Hreach. pose proof (reachable_consistent w Hreach) as Hw.
  assert (NoDup (registrations c w)) as Hnd
    by (apply NoDup_fmap_filter, Hw).
  split; [done|]. split; [|split].
  - rewrite (attempts_exited c w Hw). apply NoDup_submseteq.
    + do 2 apply NoDup_fmap_filter. apply Hw.
    + intros n (g & -> & [Hc [_ Hg]%list_elem_of_filter]%list_elem_of_filter)%list_elem_of_fmap.
      apply list_elem_of_fmap. exists g. split; [done|]. by apply list_elem_of_filter.
  - intros Hc. apply Permutation_nil_r. rewrite (attempts_exited c w Hw).
    destruct (filter _ (filter _ _)) as [|g l] eqn:Hf; [done|].
    assert (g ∈ g :: l) as Hg by (by left). rewrite <- Hf in Hg.
    apply list_elem_of_filter in Hg as [Hctx [Hs Hg]%list_elem_of_filter].
    exfalso. apply Hc. rewrite <- Hctx. by apply (exited_cancelled w Hw).
  - intros Hc schedule Hfair.
    pose proof (reachable_wakes schedule w Hreach) as Hreach'.
    pose proof (reachable_consistent _ Hreach') as Hw'.
    assert (attempts c (wakes schedule w) ≡ₚ registrations c w) as Hall.
    { rewrite (attempts_exited c _ Hw'), <- (registrations_wakes c schedule w).
      unfold registrations. rewrite filter_filter_all; [done|].
      intros g [i Hi]%list_elem_of_lookup Hctx.
      apply (wakes_settle c schedule i w Hc); [|done|done].
      apply Hfair. rewrite <- (wakes_length schedule w). by eapply lookup_lt_Some. }
    split; [done|]. split; [apply registrations_wakes|]. split; [done|].
    by rewrite Hall.
Qed.

(** The handles of the watchers of a batch are the handles that the
    transport granted. *)
Lemma batch_watchers_accepted (c : Context) (conn : EncodedConn) (history cs : list Call) :
  gid <$> Spec.batch_watchers c conn history cs = Spec.batch_accepted conn history cs
  ∧ Forall (λ g, g_ctx g = c) (Spec.batch_watchers c conn history cs).
Proof.
  revert history. induction cs as [|call cs IH]; intros history; simpl; [done|].
  destruct (IH (history ++ [call])) as [Hids Hctx].
  destruct (subscribe_err conn history call); [done|].
  split; [by rewrite fmap_cons, Hids|by constructor].
Qed.

(** A batch of attempts under the context [c0] adds to the handles of
    [c0] what the transport granted, and nothing to another context. *)
Lemma registrations_attempts (c c0 : Context) (conn : EncodedConn) (cs : list Call)
    (w : World) :
  let w' := foldl (λ w call, attempt c0 conn call w) w cs in
  registrations c w'
  = if decide (c = c0) then registrations c w ++ granted conn w w' else registrations c w.
Proof.
  cbv zeta. unfold granted. rewrite attempts_batch. simpl.
  rewrite drop_app_length. unfold registrations. simpl.
  rewrite filter_app, fmap_app.
  destruct (batch_watchers_accepted c0 conn (calls w) cs) as [Hids Hctx].
  case_decide as Hc.
  - subst c0. f_equal. rewrite <- Hids. f_equal.
    clear Hids. induction Hctx as [|g l Hg _ IH]; [done|].
    by rewrite filter_cons, decide_True, IH.
  - rewrite <- (app_nil_r (gid <$> filter _ (goroutines w))) at 2. f_equal.
    clear Hids. induction Hctx as [|g l Hg _ IH]; [done|].
    rewrite filter_cons, decide_False; [done|congruence].
Qed.

(** The account of a run is what the goroutines hold: every registration
    that succeeded has its goroutine, and every goroutine its
    registration. *)
Lemma run_registrations (w : World) (acc : Context → list nat) :
  run w acc → reachable w ∧ ∀ c, acc c = registrations c w.
Proof.
  induction 1 as [|op w w' acc _ [Hreach Hacc] Hexec]; [split; [constructor|done]|].
  split; [by eapply reachable_exec|]. intros c.
  destruct Hexec as [s service w w' H | s messages queue w w' H | c0 w | i w]; simpl.
  - unfold Subscribe in H. destruct (getMessages service) as [messages|]; [|done].
    simpl in H. injection H as <-. rewrite Subscribe_range_attempts.
    pose proof (registrations_attempts c (ctx s) (econn s)
                  (Spec.registration <$> messages) w) as Hr.
    cbv zeta in Hr. rewrite Hr, Hacc. done.
  - destruct H as (order & _ & ->). unfold SubscribeFunc_in.
    rewrite SubscribeFunc_range_attempts.
    pose proof (registrations_attempts c (ctx s) (econn s)
                  (Spec.entryRegistration match queue with q :: _ => q | [] => go "" end
                     <$> order) w) as Hr.
    cbv zeta in Hr. rewrite Hr, Hacc. done.
  - by rewrite Hacc.
  - by rewrite Hacc, registrations_wake.
Qed.

Lemma run_wakes (schedule : list nat) (w : World) (acc : Context → list nat) :
  run w acc → run (wakes schedule w) acc.
Proof.
  revert w. induction schedule as [|j rest IH]; intros w Hw; [done|].
  cbn. fold (wakes rest (wake j w)). apply IH.
  apply (run_exec (OpWake j) w (wake j w) acc Hw). apply exec_Wake.
Qed.

(** C9: in every run (batches of any size, several subscribers,
    cancellations and goroutines interleaved in any way), let [acc c] be
    the handles that the transport granted to the registrations made
    under the context [c]: the [N] registrations that succeeded.  They
    are distinct; no handle at all is unsubscribed twice; the unsubscribe
    attempts on them are among them, each at most once, and there is none
    before [c] is cancelled.  Once [c] is cancelled, however the
    scheduler then runs the goroutines, when each of them has had its
    turn the attempts on these handles are these handles, each exactly
    once: [N] attempts. *)
Theorem cancel_unsubscribes_every_registration (c : Context) (w : World)
    (acc : Context → list nat) :
  run w acc →
  NoDup (acc c)
  ∧ NoDup (unsubscribed w)
  ∧ filter (λ n, n ∈ acc c) (unsubscribed w) ⊆+ acc c
  ∧ (c ∉ cancelled w → filter (λ n, n ∈ acc c) (unsubscribed w) = [])
  ∧ (c ∈ cancelled w →
     ∀ schedule, (∀ i, (i < length (goroutines w))%nat → i ∈ schedule) →
       run (wakes schedule w) acc
       ∧ filter (λ n, n ∈ acc c) (unsubscribed (wakes schedule w)) ≡ₚ acc c
       ∧ length (filter (λ n, n ∈ acc c) (unsubscribed (wakes schedule w)))
         = length (acc c)).
Proof.
  intros Hrun. destruct (run_registrations w acc Hrun) as [Hreach Hacc].
  destruct (goroutines_unsubscribe_once c w Hreach) as (Hnd & Hsub & Hnone & Hall).
  rewrite Hacc. fold (attempts c w).
  split; [done|]. split; [|split; [done|split; [done|]]].
  - destruct (reachable_consistent w Hreach) as [_ Hdistinct Hunsub _].
    rewrite Hunsub. by apply NoDup_fmap_filter.
  - intros Hc schedule Hfair.
    destruct (Hall Hc schedule Hfair) as (_ & Hsame & Hperm & Hlen).
    split; [by apply run_wakes|].
    rewrite <- Hsame. fold (attempts c (wakes schedule w)). rewrite Hsame. done.
Qed.

Example someRun_registrations :
  registrations 0%nat someRun = [0%nat; 1%nat] ∧ attempts 0%nat someRun = [].
Proof. split; reflexivity. Qed.

Example unsubscribe_after_cancel :
  unsubscribed (wakes [1%nat; 0%nat; 1%nat] someRun) = [1%nat; 0%nat]
  ∧ attempts 0%nat (wakes [1%nat; 0%nat; 1%nat] someRun) = [1%nat; 0%nat].
Proof. split; reflexivity. Qed.

(** * Further properties of the code *)

(** ** [polishKindName] *)

Section split_join.
Implicit Types (s t p : gostring) (c b : ascii).

(** Joining what was split gives the string back. *)
Lemma Join_Split s c : strings.Join (strings.Split s c) [c] = s.
Proof.
  induction s as [|b s IH]; [done|]. simpl.
  pose proof (Split_length s c) as Hlen.
  destruct (strings.Split s c) as [|p0 ps] eqn:Hs; [simpl in Hlen; lia|].
  destruct (Ascii.eqb_spec b c) as [->|Hne].
  - change (strings.Join ([] :: p0 :: ps) [c])
      with ([] ++ [c] ++ strings.Join (p0 :: ps) [c]).
    by rewrite IH.
  - destruct ps as [|p1 ps]; simpl in *; by rewrite <- IH.
Qed.

Lemma Split_app s t c :
  strings.Split (s ++ c :: t) c = strings.Split s c ++ strings.Split t c.
Proof.
  induction s as [|b s IH]; simpl.
  - by rewrite Ascii.eqb_refl.
  - rewrite IH. destruct (Ascii.eqb b c); [done|].
    pose proof (Split_length s c) as Hlen.
    destruct (strings.Split s c); [simpl in Hlen; lia|done].
Qed.

Lemma Split_absent s c : c ∉ s → strings.Split s c = [s].
Proof.
  induction s as [|b s IH]; [done|].
  intros [Hb Hs]%not_elem_of_cons. simpl. rewrite (IH Hs).
  destruct (Ascii.eqb_spec b c); congruence.
Qed.

(** A byte of a joined string is a byte of the separator or of a part. *)
Lemma Join_elem (parts : list gostring) (sep : gostring) b :
  b ∈ strings.Join parts sep → b ∈ sep ∨ ∃ p, p ∈ parts ∧ b ∈ p.
Proof.
  induction parts as [|p ps IH]; [by intros ?%elem_of_nil|].
  destruct ps as [|p1 ps].
  - simpl. intros Hb. right. exists p. split; [by left|done].
  - change (strings.Join (p :: p1 :: ps) sep)
      with (p ++ sep ++ strings.Join (p1 :: ps) sep).
    rewrite !elem_of_app. intros [Hb|[Hb|Hb]].
    + right. exists p. split; [by left|done].
    + by left.
    + destruct (IH Hb) as [?|(q & Hq & ?)]; [by left|].
      right. exists q. split; [by right|done].
Qed.

Lemma keepLast_subseteq {A} (n : nat) (l : list A) : Spec.keepLast n l ⊆ l.
Proof. rewrite keepLast_drop. apply subseteq_drop. Qed.

Lemma dropLast_subseteq {A} (n : nat) (l : list A) : Spec.dropLast n l ⊆ l.
Proof. rewrite dropLast_take. apply subseteq_take. Qed.

Lemma removeDecoration_plain s : plain s → Spec.removeDecoration s = s.
Proof.
  unfold plain, Spec.removeDecoration. induction 1 as [|b s Hb Hs IH]; [done|].
  rewrite filter_cons, decide_True, IH; [done|].
  intros Hin. apply Hb. right. right. exact Hin.
Qed.

Lemma removeDecoration_app s t :
  Spec.removeDecoration (s ++ t) = Spec.removeDecoration s ++ Spec.removeDecoration t.
Proof. apply filter_app. Qed.

Lemma plain_absent s b : plain s → b ∈ special → b ∉ s.
Proof.
  unfold plain. rewrite Forall_forall. intros Hs Hb Hin. by apply (Hs b Hin).
Qed.

End split_join.

(** X1: with a [take] that is zero or negative, [polishKindName] returns
    the empty string, whatever the name and [drop] are. *)
Theorem polishKindName_take_nonpositive (name : gostring) (take drop : Z) :
  take <= 0 → polishKindName name take drop = Some [].
Proof.
  intros Ht. rewrite polishKindName_label. f_equal. unfold Spec.label. cbv zeta.
  rewrite Z.max_l by lia.
  set (parts := strings.Split _ _).
  pose proof (Split_length
    (Spec.removeDecoration (if Spec.slashInside name then Spec.stripNamespace name else name))
    ".") as Hlen. fold parts in Hlen.
  destruct (Z.leb_spec (len parts) 0) as [Hle|_]; [unfold len in Hle; lia|].
  change (Z.to_nat 0) with 0%nat. unfold Spec.keepLast. rewrite take_0.
  rewrite reverse_nil. change (len (@nil gostring)) with 0.
  destruct (Z.ltb_spec 0 drop), (Z.ltb_spec drop 0); simpl; try done. lia.
Qed.

(** X2: when [take] is at least the number of dot-separated parts of the
    cleaned name and [drop] is not positive or is at least that number,
    [polishKindName] returns the cleaned name whole: splitting and
    joining lose nothing. *)
Theorem polishKindName_keeps_all (name : gostring) (take drop : Z) :
  len (strings.Split (cleaned name) ".") <= take →
  drop <= 0 ∨ len (strings.Split (cleaned name) ".") <= drop →
  polishKindName name take drop = Some (cleaned name).
Proof.
  intros Ht Hd. rewrite polishKindName_label. f_equal. unfold Spec.label. cbv zeta.
  fold (cleaned name). set (parts := strings.Split (cleaned name) ".") in *.
  pose proof (len_nonneg parts).
  rewrite Z.max_r by lia.
  destruct (Z.leb_spec (len parts) take); [|lia].
  replace ((0 <? drop) && (drop <? len parts)) with false.
  - apply Join_Split.
  - destruct (Z.ltb_spec 0 drop), (Z.ltb_spec drop (len parts)); simpl; try done. lia.
Qed.

(** X3: a name without [/], [.], [(], [)] and [*] comes back as it is for
    every [take >= 1] and every [drop]. *)
Theorem polishKindName_plain (name : gostring) (take drop : Z) :
  plain name → 1 <= take → polishKindName name take drop = Some name.
Proof.
  intros Hp Ht. rewrite polishKindName_label. f_equal.
  assert ("/"%char ∉ name) as Hslash by (apply plain_absent; [done|by left]).
  assert ("."%char ∉ name) as Hdot by (apply plain_absent; [done|right; by left]).
  rewrite slashInside_absent by done.
  unfold Spec.label. cbv zeta.
  rewrite removeDecoration_plain, Split_absent by done.
  rewrite Z.max_r by lia. change (len [name]) with 1.
  destruct (Z.leb_spec 1 take); [|lia].
  change (len [name]) with 1.
  destruct (Z.ltb_spec 0 drop), (Z.ltb_spec drop 1); simpl; try done. lia.
Qed.

(** X4: whatever the name, [take] and [drop] are, the string that
    [polishKindName] returns has no [(], [)] or [*]. *)
Theorem polishKindName_no_decoration (name : gostring) (take drop : Z) :
  ∃ r, polishKindName name take drop = Some r
       ∧ ∀ b, b ∈ r → b ∉ ["("%char; ")"%char; "*"%char].
Proof.
  eexists. split; [apply polishKindName_label|].
  intros b Hb. unfold Spec.label in Hb. cbv zeta in Hb. fold (cleaned name) in Hb.
  apply Join_elem in Hb as [Hb|(p & Hp & Hb)].
  { apply list_elem_of_singleton in Hb as ->.
    rewrite !not_elem_of_cons. repeat split; try discriminate. apply not_elem_of_nil. }
  assert (p ∈ strings.Split (cleaned name) ".") as Hin.
  { destruct ((0 <? drop) && _); [apply dropLast_subseteq in Hp|];
      (destruct (_ <=? _); [done|by apply keepLast_subseteq in Hp]). }
  destruct (Split_parts _ _ _ _ Hin Hb) as [Hc _].
  unfold cleaned, Spec.removeDecoration in Hc.
  by apply list_elem_of_filter in Hc as [Hdec _].
Qed.

Lemma polishKindName_dot_plain (prefix typeName : gostring) :
  plain typeName →
  polishKindName (prefix ++ "."%char :: typeName) 1 0 = Some typeName.
Proof.
  intros Hp. rewrite polishKindName_label, label_1_0. f_equal.
  assert ("/"%char ∉ typeName) as Hslash by (apply plain_absent; [done|by left]).
  assert ("."%char ∉ typeName) as Hdot by (apply plain_absent; [done|right; by left]).
  assert (∃ prefix', (if Spec.slashInside (prefix ++ "."%char :: typeName)
                      then Spec.stripNamespace (prefix ++ "."%char :: typeName)
                      else prefix ++ "."%char :: typeName)
                     = prefix' ++ "."%char :: typeName) as [prefix' ->].
  { destruct (Spec.slashInside _); [|by eexists].
    destruct (last_slash prefix) as [Hno | (ns & q & -> & Hq)].
    - exists prefix. apply stripNamespace_absent.
      rewrite not_elem_of_app, not_elem_of_cons. done.
    - exists q. rewrite <- app_assoc. simpl.
      apply (stripNamespace_last ns (q ++ "."%char :: typeName)).
      rewrite not_elem_of_app, not_elem_of_cons. done. }
  unfold Spec.bareTypeName.
  rewrite removeDecoration_app.
  change ("."%char :: typeName) with (["."%char] ++ typeName).
  rewrite removeDecoration_app. simpl.
  rewrite (removeDecoration_plain typeName Hp).
  change (Spec.removeDecoration ["."%char]) with ["."%char]. simpl.
  rewrite Split_app, (Split_absent typeName) by done.
  by rewrite last_snoc.
Qed.

(** X5: on a name that ends in a dot and a plain type name, as
    [reflect.Type.String] gives it ("*subly.someService"),
    [polishKindName] with [take = 1] and [drop = 0] returns the type name,
    whatever precedes the dot. *)
Theorem polishKindName_type_name (prefix typeName : gostring) :
  plain typeName →
  polishKindName (prefix ++ "."%char :: typeName) 1 0 = Some typeName.
Proof. apply polishKindName_dot_plain. Qed.

(** ** [getMessages] *)

(** What the loop of [getMessages] appends for a list of methods of the
    service: one descriptor for each method that is kept, in their
    order. *)
Lemma getMessages_loop_kept (service : Service) (kind : gostring) (ms : list Method)
    (res : list serviceMessage) :
  polishKindName (TypeString service) 1 0 = Some kind →
  ms ⊆ Methods service →
  ∃ new,
    getMessages_loop service ms res = Some (res ++ new)
    ∧ Forall2 (λ m sm,
         queue sm = strings.HasSuffix (Name m) (go "MessageQueue")
         ∧ serviceName sm = strings.ToLower unicodeLower kind
         ∧ messageName sm = messageNameOf m
         ∧ MethodByName service (Name m) = Some (message sm))
        (filter (λ m, kept m = true) ms) new.
Proof.
  intros Hkind. revert res. induction ms as [|m ms IH]; intros res Hsub.
  { exists []. by rewrite app_nil_r. }
  assert (m ∈ Methods service) as Hm by (apply Hsub; by left).
  assert (ms ⊆ Methods service) as Hms by (intros x Hx; apply Hsub; by right).
  rewrite filter_cons. cbn [getMessages_loop].
  destruct (kept m) eqn:Hkept.
  - destruct (getMessages_body_match service m res Hm Hkept) as (f & kind' & Hf & Hk & ->).
    rewrite Hkind in Hk. injection Hk as <-.
    set (sm := {| queue := strings.HasSuffix (Name m) (go "MessageQueue");
                  serviceName := strings.ToLower unicodeLower kind;
                  messageName := _; message := f |}).
    destruct (IH (res ++ [sm]) Hms) as (new & Hl & Hnew).
    exists (sm :: new). split.
    + etrans; [exact Hl|]. by rewrite <- app_assoc.
    + rewrite decide_True by done. by constructor.
  - unfold kept in Hkept. apply orb_false_iff in Hkept as [H1 H2].
    rewrite (getMessages_body_skip service m res H1 H2).
    destruct (IH res Hms) as (new & Hl & Hnew). exists new. split; [exact Hl|].
    by rewrite decide_False.
Qed.

Lemma MethodByName_own (service : Service) (m : Method) :
  NoDup (Name <$> Methods service) → m ∈ Methods service →
  MethodByName service (Name m) = Some (Func m).
Proof.
  intros Hnd Hm. destruct (MethodByName_found service m Hm) as [f Hf].
  rewrite Hf. unfold MethodByName in Hf.
  destruct (find _ (Methods service)) as [m'|] eqn:Hfind; [|done].
  injection Hf as <-. apply find_some in Hfind as [Hin Hname].
  apply list_elem_of_In in Hin. apply bool_decide_eq_true in Hname.
  by rewrite (NoDup_fmap_inj_on Name (Methods service) m' m Hnd Hin Hm Hname).
Qed.

(** X6: on a service value (an interface that is not nil) [getMessages]
    does not panic, and it gives one descriptor for each method whose
    name ends in ["Message"] or ["MessageQueue"], in the order of the
    method set and none else; all of them carry the same service name,
    the lower-cased label of the type. *)
Theorem getMessages_enumerates (service : Service) :
  ∃ kind messages,
    polishKindName (TypeString service) 1 0 = Some kind
    ∧ getMessages service = Some messages
    ∧ (λ sm, (queue sm, serviceName sm, messageName sm)) <$> messages
      = (λ m, (strings.HasSuffix (Name m) (go "MessageQueue"),
               strings.ToLower unicodeLower kind, messageNameOf m))
        <$> filter (λ m, kept m = true) (Methods service).
Proof.
  pose proof (polishKindName_label (TypeString service) 1 0) as Hkind.
  destruct (getMessages_loop_kept service _ (Methods service) [] Hkind ltac:(done))
    as (new & Hloop & Hnew).
  eexists _, new. split; [exact Hkind|]. split; [exact Hloop|]. clear Hloop.
  induction Hnew as [|m sm l k (Hq & Hs & Hn & _) _ IH]; [done|].
  rewrite !fmap_cons, IH. by rewrite Hq, Hs, Hn.
Qed.

(** X7: when the methods of the service have distinct names, as the
    methods of a Go type have, the callback of each descriptor is the
    method it was made from. *)
Theorem getMessages_binds_methods (service : Service) :
  NoDup (Name <$> Methods service) →
  ∃ messages,
    getMessages service = Some messages
    ∧ message <$> messages = Func <$> filter (λ m, kept m = true) (Methods service).
Proof.
  intros Hnd.
  pose proof (polishKindName_label (TypeString service) 1 0) as Hkind.
  destruct (getMessages_loop_kept service _ (Methods service) [] Hkind ltac:(done))
    as (new & Hloop & Hnew).
  exists new. split; [exact Hloop|]. clear Hloop.
  assert (∀ m, m ∈ filter (λ m, kept m = true) (Methods service) → m ∈ Methods service)
    as Hin by (by intros m [_ ?]%list_elem_of_filter).
  induction Hnew as [|m sm l k (_ & _ & _ & Hf) _ IH]; [done|].
  rewrite !fmap_cons, IH by (intros x Hx; apply Hin; by right).
  rewrite MethodByName_own in Hf by (try done; apply Hin; by left).
  by injection Hf as ->.
Qed.

(** X8: a service with no method that ends in one of the two suffixes
    (a service without methods among them) is subscribed to nothing:
    [Subscribe] returns with the world as it was. *)
Theorem Subscribe_nothing_kept (s : Subscriber) (service : Service) (w : World) :
  (∀ m, m ∈ Methods service → kept m = false) →
  Subscribe s service w = Some w.
Proof.
  intros Hnone.
  pose proof (polishKindName_label (TypeString service) 1 0) as Hkind.
  destruct (getMessages_loop_kept service _ (Methods service) [] Hkind ltac:(done))
    as (new & Hloop & Hnew).
  assert (filter (λ m, kept m = true) (Methods service) = []) as Hf.
  { destruct (filter _ _) as [|m l] eqn:Hfl; [done|].
    assert (m ∈ m :: l) as Hm by (by left). rewrite <- Hfl in Hm.
    apply list_elem_of_filter in Hm as [Hk Hm]. by rewrite (Hnone m Hm) in Hk. }
  rewrite Hf in Hnew. apply Forall2_nil_inv_l in Hnew as ->.
  unfold Subscribe, getMessages. rewrite Hloop. done.
Qed.

(** X9: two methods named [base ++ "Message"] and [base ++ "MessageQueue"]
    of one service get the same subject: [Subscribe] makes a plain
    subscription and a queue subscription under it. *)
Theorem twin_methods_share_subject (service : Service) (m1 m2 : Method)
    (base : gostring) (res1 res2 : list serviceMessage) :
  m1 ∈ Methods service → m2 ∈ Methods service →
  Name m1 = base ++ go "Message" → Name m2 = base ++ go "MessageQueue" →
  ∃ sm1 sm2,
    getMessages_body service m1 res1 = Some (res1 ++ [sm1])
    ∧ getMessages_body service m2 res2 = Some (res2 ++ [sm2])
    ∧ subjectOf sm1 = subjectOf sm2
    ∧ ∀ (s : Subscriber) (w : World),
        calls (Subscribe_range s [sm1; sm2] w)
        = calls w ++ [ SubscribeCall (subjectOf sm1) (message sm1);
                       QueueSubscribeCall (subjectOf sm1)
                         (fmt.Sprintf_s_s (go "_") (serviceName sm2) (messageName sm2))
                         (message sm2) ].
Proof.
  intros Hm1 Hm2 Hn1 Hn2.
  destruct (getMessages_body_Message service m1 res1 base Hm1 Hn1) as (f1 & k1 & Hk1 & ->).
  destruct (getMessages_body_MessageQueue service m2 res2 base Hm2 Hn2) as (f2 & k2 & Hk2 & ->).
  rewrite Hk1 in Hk2. injection Hk2 as <-.
  eexists _, _. split; [done|]. split; [done|]. split; [done|].
  intros s w. rewrite Subscribe_range_attempts, attempts_batch. done.
Qed.

(** X10: when the type string ends in a dot and a plain type name, every
    descriptor of the service has the lower-cased type name as its
    service name. *)
Theorem getMessages_service_name (service : Service) (prefix typeName : gostring) :
  TypeString service = prefix ++ "."%char :: typeName → plain typeName →
  ∃ messages,
    getMessages service = Some messages
    ∧ ∀ sm, sm ∈ messages → serviceName sm = strings.ToLower unicodeLower typeName.
Proof.
  intros Hts Hp.
  pose proof (polishKindName_dot_plain prefix typeName Hp) as Hkind.
  rewrite <- Hts in Hkind.
  destruct (getMessages_loop_kept service _ (Methods service) [] Hkind ltac:(done))
    as (new & Hloop & Hnew).
  exists new. split; [exact Hloop|]. clear Hloop.
  induction Hnew as [|m sm l k (_ & Hs & _) _ IH]; [by intros sm ?%elem_of_nil|].
  intros sm' [->|Hin]%elem_of_cons; [done|by apply IH].
Qed.

(** ** Registration and the goroutines *)

(** What a batch of attempts adds to the world. *)
Lemma attempts_count (c : Context) (conn : EncodedConn) (cs : list Call) (w : World) :
  let w' := foldl (λ w call, attempt c conn call w) w cs in
  length (calls w') = (length (calls w) + length cs)%nat
  ∧ (length (goroutines w') + length (logged w')
     = length (goroutines w) + length (logged w) + length cs)%nat
  ∧ goroutines w `prefix_of` goroutines w'
  ∧ logged w `prefix_of` logged w'
  ∧ calls w `prefix_of` calls w'
  ∧ unsubscribed w' = unsubscribed w ∧ cancelled w' = cancelled w.
Proof.
  cbv zeta. rewrite attempts_batch. simpl. rewrite !length_app.
  pose proof (batch_watchers_length c conn (calls w) cs).
  repeat split; try lia; by apply prefix_app_r.
Qed.

Lemma Subscribe_grows (s : Subscriber) (service : Service) (w : World) :
  ∃ messages w',
    getMessages service = Some messages
    ∧ Subscribe s service w = Some w'
    ∧ length (calls w') = (length (calls w) + length messages)%nat
    ∧ (length (goroutines w') + length (logged w')
       = length (goroutines w) + length (logged w) + length messages)%nat
    ∧ goroutines w `prefix_of` goroutines w'
    ∧ logged w `prefix_of` logged w'
    ∧ calls w `prefix_of` calls w'
    ∧ unsubscribed w' = unsubscribed w ∧ cancelled w' = cancelled w.
Proof.
  destruct (getMessages_loop_total service (Methods service) [] ltac:(done))
    as [messages Hm].
  exists messages. eexists. split; [exact Hm|].
  unfold Subscribe, getMessages. rewrite Hm. simpl. split; [done|].
  rewrite Subscribe_range_attempts.
  pose proof (attempts_count (ctx s) (econn s) (Spec.registration <$> messages) w) as H.
  cbv zeta in H. by rewrite length_fmap in H.
Qed.

Lemma SubscribeFunc_grows (s : Subscriber) (messages : gmap gostring callable)
    (queue : list gostring) (w w' : World) :
  SubscribeFunc s messages queue w w' →
  length (calls w') = (length (calls w) + size messages)%nat
  ∧ (length (goroutines w') + length (logged w')
     = length (goroutines w) + length (logged w) + size messages)%nat
  ∧ goroutines w `prefix_of` goroutines w'
  ∧ logged w `prefix_of` logged w'
  ∧ calls w `prefix_of` calls w'
  ∧ unsubscribed w' = unsubscribed w ∧ cancelled w' = cancelled w.
Proof.
  intros (order & Hperm & ->). unfold SubscribeFunc_in.
  rewrite SubscribeFunc_range_attempts.
  pose proof (attempts_count (ctx s) (econn s)
    (Spec.entryRegistration match queue with q :: _ => q | [] => go "" end <$> order) w) as H.
  assert (length order = size messages) as Hlen
    by (rewrite Hperm; apply length_map_to_list).
  cbv zeta in H. rewrite length_fmap, Hlen in H. done.
Qed.

Lemma wake_logged (i : nat) (w : World) : logged w `prefix_of` logged (wake i w).
Proof.
  unfold wake. destruct (goroutines w !! i) as [g|]; [|done].
  destruct (g_state g); [|done]. case_bool_decide; [|done].
  unfold unsubscribe_and_exit.
  destruct (unsubscribe_err _ _); simpl; [by apply prefix_app_r|done].
Qed.

(** X11: in a call of [Subscribe], every descriptor is one call of the
    transport and gives either one goroutine or one line of the log,
    never both and never neither; nothing that was in the world
    is removed, nothing is unsubscribed and no context is cancelled. *)
Theorem Subscribe_accounting (s : Subscriber) (service : Service) (w : World) :
  ∃ messages w',
    getMessages service = Some messages
    ∧ Subscribe s service w = Some w'
    ∧ length (calls w') = (length (calls w) + length messages)%nat
    ∧ (length (goroutines w') + length (logged w')
       = length (goroutines w) + length (logged w) + length messages)%nat
    ∧ goroutines w `prefix_of` goroutines w'
    ∧ logged w `prefix_of` logged w'
    ∧ calls w `prefix_of` calls w'
    ∧ unsubscribed w' = unsubscribed w ∧ cancelled w' = cancelled w.
Proof. apply Subscribe_grows. Qed.

(** X12: the same for [SubscribeFunc], whatever the order of the
    iteration: as many calls as the map has entries, each of them one
    goroutine or one line of the log. *)
Theorem SubscribeFunc_accounting (s : Subscriber) (messages : gmap gostring callable)
    (queue : list gostring) (w w' : World) :
  SubscribeFunc s messages queue w w' →
  length (calls w') = (length (calls w) + size messages)%nat
  ∧ (length (goroutines w') + length (logged w')
     = length (goroutines w) + length (logged w) + size messages)%nat
  ∧ goroutines w `prefix_of` goroutines w'
  ∧ logged w `prefix_of` logged w'
  ∧ calls w `prefix_of` calls w'
  ∧ unsubscribed w' = unsubscribed w ∧ cancelled w' = cancelled w.
Proof. apply SubscribeFunc_grows. Qed.

Lemma SubscribeFunc_in_app (s : Subscriber) (o1 o2 : list (gostring * callable))
    (queue : list gostring) (w : World) :
  SubscribeFunc_in s (o1 ++ o2) queue w
  = SubscribeFunc_in s o2 queue (SubscribeFunc_in s o1 queue w).
Proof.
  unfold SubscribeFunc_in. rewrite !SubscribeFunc_range_attempts.
  by rewrite fmap_app, foldl_app.
Qed.

Lemma map_to_list_union_disjoint (m1 m2 : gmap gostring callable) :
  m1 ##ₘ m2 → map_to_list m1 ++ map_to_list m2 ≡ₚ map_to_list (m1 ∪ m2).
Proof.
  intros Hdisj. apply NoDup_Permutation.
  - apply NoDup_app. split; [apply NoDup_map_to_list|].
    split; [|apply NoDup_map_to_list].
    intros [k x] H1%elem_of_map_to_list H2%elem_of_map_to_list.
    by apply (map_disjoint_spec m1 m2) with k x x.
  - apply NoDup_map_to_list.
  - intros [k x]. rewrite elem_of_app, !elem_of_map_to_list.
    by rewrite lookup_union_Some.
Qed.

(** X13: two calls of [SubscribeFunc] in a row, on maps without a common
    subject and with the same queue names, end in a world in which one
    call on the union of the maps can end. *)
Theorem SubscribeFunc_union (s : Subscriber) (m1 m2 : gmap gostring callable)
    (queue : list gostring) (w w1 w2 : World) :
  m1 ##ₘ m2 →
  SubscribeFunc s m1 queue w w1 → SubscribeFunc s m2 queue w1 w2 →
  SubscribeFunc s (m1 ∪ m2) queue w w2.
Proof.
  intros Hdisj (o1 & Hp1 & ->) (o2 & Hp2 & ->).
  exists (o1 ++ o2). split; [|by rewrite SubscribeFunc_in_app].
  rewrite Hp1, Hp2. by apply map_to_list_union_disjoint.
Qed.

(** X14: nothing that happens in a run removes anything: the calls that
    the transport received, the log and the unsubscribe attempts only
    grow at their end, no goroutine disappears or changes its handle or
    its context, and a context that is cancelled stays so. *)
Theorem exec_append_only (op : Op) (w w' : World) :
  exec op w w' →
  calls w `prefix_of` calls w'
  ∧ logged w `prefix_of` logged w'
  ∧ unsubscribed w `prefix_of` unsubscribed w'
  ∧ (λ g, (g_ctx g, gid g)) <$> goroutines w
    `prefix_of` (λ g, (g_ctx g, gid g)) <$> goroutines w'
  ∧ cancelled w ⊆ cancelled w'.
Proof.
  intros Hexec. destruct Hexec as [s service w w' H | s messages queue w w' H | c w | i w].
  - destruct (Subscribe_grows s service w)
      as (messages & w'' & _ & Hs & _ & _ & Hg & Hl & Hc & Hu & Hd).
    rewrite H in Hs. injection Hs as <-. rewrite Hu, Hd.
    repeat split; try done. destruct Hg as [k ->]. rewrite fmap_app. by apply prefix_app_r.
  - destruct (SubscribeFunc_grows s messages queue w w' H)
      as (_ & _ & Hg & Hl & Hc & Hu & Hd).
    rewrite Hu, Hd. repeat split; try done.
    destruct Hg as [k ->]. rewrite fmap_app. by apply prefix_app_r.
  - simpl. repeat split; try done. intros x Hx. by right.
  - pose proof (wake_logged i w) as Hlog.
    destruct (wake_cases i w)
      as [-> | (g & l1 & l2 & Hgs & _ & _ & _ & H1 & H2 & H3 & H4)]; [done|].
    rewrite H1, H2, H3, H4, Hgs. repeat split; try done.
    + by apply prefix_app_r.
    + by rewrite !fmap_app, !fmap_cons.
Qed.

(** X15: in every world of every run no handle is unsubscribed twice,
    there are no more unsubscribe attempts than goroutines, and no more
    goroutines than calls that the transport received. *)
Theorem reachable_bounds (w : World) :
  reachable w →
  NoDup (unsubscribed w)
  ∧ (length (unsubscribed w) <= length (goroutines w))%nat
  ∧ (length (goroutines w) <= length (calls w))%nat.
Proof.
  intros [Hissued Hdistinct Hunsub _]%reachable_consistent.
  split; [|split].
  - rewrite Hunsub. by apply NoDup_fmap_filter.
  - rewrite Hunsub, length_fmap. apply length_filter.
  - rewrite <- (length_fmap gid).
    transitivity (length (seq 0 (length (calls w)))); [|by rewrite length_seq].
    apply submseteq_length, NoDup_submseteq; [done|].
    intros n (g & -> & Hg)%list_elem_of_fmap. apply elem_of_seq.
    specialize (Hissued g Hg). lia.
Qed.

(** X16: as long as no context of a waiting goroutine is cancelled, the
    goroutines are blocked: however the scheduler runs them, and for
    however long, the world stays as it is; no handle is unsubscribed,
    whatever other contexts are cancelled. *)
Theorem wakes_blocked (schedule : list nat) (w : World) :
  (∀ g, g ∈ goroutines w → g_state g = Waiting → g_ctx g ∉ cancelled w) →
  wakes schedule w = w.
Proof.
  intros Hblocked. induction schedule as [|i rest IH]; [done|].
  cbn. fold (wakes rest (wake i w)).
  assert (wake i w = w) as ->; [|exact IH].
  unfold wake. destruct (goroutines w !! i) as [g|] eqn:Hi; [|done].
  destruct (g_state g) eqn:Hs; [|done].
  rewrite bool_decide_eq_false_2; [done|].
  apply Hblocked; [|done]. by eapply list_elem_of_lookup_2.
Qed.

(** X17: when the context of a waiting goroutine is cancelled and
    [Unsubscribe] fails, the goroutine logs the error and exits all the
    same: the handle counts as attempted, the transport gets no new
    call, and running the goroutine again does nothing (no retry). *)
Theorem unsubscribe_failure_logged_once (i : nat) (g : Goroutine) (w : World) (e : error) :
  goroutines w !! i = Some g → g_state g = Waiting → g_ctx g ∈ cancelled w →
  unsubscribe_err (sub_conn (g_sub g)) (sub_id (g_sub g)) = Some e →
  logged (wake i w) = logged w ++ [e]
  ∧ unsubscribed (wake i w) = unsubscribed w ++ [sub_id (g_sub g)]
  ∧ goroutines (wake i w) !! i
    = Some {| g_ctx := g_ctx g; g_sub := g_sub g; g_state := Exited |}
  ∧ calls (wake i w) = calls w
  ∧ wake i (wake i w) = wake i w.
Proof.
  intros Hi Hs Hc He.
  assert (wake i w = log_Println e
    {| calls := calls w; logged := logged w;
       goroutines := <[i := {| g_ctx := g_ctx g; g_sub := g_sub g; g_state := Exited |}]>
                       (goroutines w);
       unsubscribed := unsubscribed w ++ [sub_id (g_sub g)];
       cancelled := cancelled w |}) as Hw.
  { unfold wake. rewrite Hi, Hs, bool_decide_eq_true_2 by done.
    unfold unsubscribe_and_exit. by rewrite He. }
  assert (goroutines (wake i w) !! i
          = Some {| g_ctx := g_ctx g; g_sub := g_sub g; g_state := Exited |}) as Hi'.
  { rewrite Hw. simpl. apply list_lookup_insert_eq. by eapply lookup_lt_Some. }
  repeat split; try (by rewrite Hw).
  - done.
  - unfold wake at 1. by rewrite Hi'.
Qed.


End subly.

(** ** The theorems at work

    Each lemma below applies a theorem to the example of the package
    documentation or to one like it.  The names of the examples are
    ASCII: the choice made for the Unicode path plays no part. *)

Lemma byteLower_lowering : lowering byteLower.
Proof.
  split.
  - intros s Hs. unfold byteLower. by destruct s.
  - intros s. unfold strings.ToLower, byteLower.
    destruct (strings.isASCII _); rewrite map_map; apply map_ext;
      intros b; apply lowerByte_idem.
Qed.

(** Whatever the Unicode tables are, the method [Message] of
    [inboxService] gives a descriptor with an empty [messageName]. *)
Example getMessages_inboxService (unicodeLower : gostring → gostring) :
  getMessages unicodeLower inboxService
  = Some [ {| queue := false; serviceName := go "inbox";
              messageName := go ""; message := 1%nat |} ].
Proof. reflexivity. Qed.

(** C4, as the specification words it, fails: a method named [Message]
    gives a descriptor whose [messageName] is empty. *)
Lemma descriptor_name_may_be_empty :
  ¬ (∀ (unicodeLower : gostring → gostring) (service : Service)
       (messages : list serviceMessage) (sm : serviceMessage),
       lowering unicodeLower → Spec.namesType (TypeString service) →
       getMessages unicodeLower service = Some messages → sm ∈ messages →
       Spec.lowerCase unicodeLower (serviceName sm)
       ∧ Spec.lowerCase unicodeLower (messageName sm)
       ∧ serviceName sm ≠ [] ∧ messageName sm ≠ []).
Proof.
  intros H.
  destruct (H byteLower inboxService
              [ {| queue := false; serviceName := go "inbox";
                   messageName := go ""; message := 1%nat |} ]
              {| queue := false; serviceName := go "inbox";
                 messageName := go ""; message := 1%nat |}
              byteLower_lowering) as (_ & _ & _ & Hne).
  - exists "x"%char. split; [reflexivity|].
    rewrite !not_elem_of_cons. repeat split; try discriminate. apply not_elem_of_nil.
  - reflexivity.
  - by left.
  - by apply Hne.
Qed.

Lemma descriptor_names_witness :
  ∃ sm, getMessages_body byteLower someService
          {| Name := go "RepActionMessageQueue"; Func := 8%nat |} []
        = Some ([] ++ [sm])
    ∧ Spec.lowerCase byteLower (serviceName sm)
    ∧ Spec.lowerCase byteLower (messageName sm)
    ∧ (strings.isASCII (go "*subly.someService") = true
       → Spec.isLower (serviceName sm) = true)
    ∧ (strings.isASCII (go "RepActionMessageQueue") = true
       → Spec.isLower (messageName sm) = true)
    ∧ serviceName sm ≠ []
    ∧ (messageName sm = [] ↔
         go "RepActionMessageQueue" = go "Message"
         ∨ go "RepActionMessageQueue" = go "MessageQueue")
    ∧ (queue sm = true →
       ∀ (s : Subscriber) (w : World),
         calls (Subscribe_range s [sm] w)
         = calls w ++ [QueueSubscribeCall (serviceName sm ++ go "." ++ messageName sm)
                         (serviceName sm ++ go "_" ++ messageName sm) (message sm)]).
Proof.
  apply (descriptor_names byteLower someService
           {| Name := go "RepActionMessageQueue"; Func := 8%nat |} []).
  - apply byteLower_lowering.
  - exists "e"%char. split; [reflexivity|].
    rewrite !not_elem_of_cons. repeat split; try discriminate. apply not_elem_of_nil.
  - unfold someService. cbn [Methods]. repeat constructor.
  - right. exists (go "RepAction"). reflexivity.
Defined.

Lemma cancel_unsubscribes_every_registration_witness :
  NoDup (someAccount 0%nat)
  ∧ NoDup (unsubscribed someRun)
  ∧ filter (λ n, n ∈ someAccount 0%nat) (unsubscribed someRun) ⊆+ someAccount 0%nat
  ∧ (0%nat ∉ cancelled someRun
     → filter (λ n, n ∈ someAccount 0%nat) (unsubscribed someRun) = [])
  ∧ (0%nat ∈ cancelled someRun →
     ∀ schedule, (∀ i, (i < length (goroutines someRun))%nat → i ∈ schedule) →
       run byteLower (wakes schedule someRun) someAccount
       ∧ filter (λ n, n ∈ someAccount 0%nat) (unsubscribed (wakes schedule someRun))
         ≡ₚ someAccount 0%nat
       ∧ length (filter (λ n, n ∈ someAccount 0%nat)
                   (unsubscribed (wakes schedule someRun)))
         = length (someAccount 0%nat)).
Proof.
  apply (cancel_unsubscribes_every_registration byteLower 0%nat someRun someAccount).
  refine (run_exec byteLower (OpCancel 0%nat) _ _ _
            (run_exec byteLower (OpSubscribe (NewSubscriber 0%nat reliable) someService)
               init _ _ (run_init byteLower) _)
            (exec_Cancel byteLower _ _)).
  apply (exec_Subscribe byteLower (NewSubscriber 0%nat reliable) someService). reflexivity.
Defined.

Example someRun_unsubscribed :
  someAccount 0%nat = [0%nat; 1%nat]
  ∧ filter (λ n, n ∈ someAccount 0%nat) (unsubscribed (wakes [1%nat; 0%nat; 1%nat] someRun))
    = [1%nat; 0%nat].
Proof. split; reflexivity. Qed.

Lemma SubscribeFunc_first_queue_name_witness :
  ∃ order, order ≡ₚ map_to_list ({[ go "jobs.new" := 4%nat ]} : gmap gostring callable)
    ∧ SubscribeFunc_in (NewSubscriber 0%nat reliable)
        (map_to_list ({[ go "jobs.new" := 4%nat ]} : gmap gostring callable))
        [go "workers"; go "ignored"] init
      = SubscribeFunc_in (NewSubscriber 0%nat reliable) order [go "workers"] init
    ∧ (go "workers" ≠ [] →
       calls (SubscribeFunc_in (NewSubscriber 0%nat reliable)
                (map_to_list ({[ go "jobs.new" := 4%nat ]} : gmap gostring callable))
                [go "workers"; go "ignored"] init)
       = calls init ++ ((λ e, QueueSubscribeCall e.1 (go "workers") e.2) <$> order))
    ∧ (go "workers" = [] →
       calls (SubscribeFunc_in (NewSubscriber 0%nat reliable)
                (map_to_list ({[ go "jobs.new" := 4%nat ]} : gmap gostring callable))
                [go "workers"; go "ignored"] init)
       = calls init ++ ((λ e, SubscribeCall e.1 e.2) <$> order)).
Proof.
  apply (proj2 (proj2 (SubscribeFunc_first_queue_name (NewSubscriber 0%nat reliable)
                         {[ go "jobs.new" := 4%nat ]} (go "workers") (go "ignored") []
                         init))).
  exists (map_to_list ({[ go "jobs.new" := 4%nat ]} : gmap gostring callable)).
  split; reflexivity.
Defined.

Lemma polishKindName_bare_type_name_witness :
  polishKindName (go "pkg/sub.(*SomeService)") 1 0 = Some (go "SomeService")
  ∧ ∀ b, b ∈ go "SomeService" →
         b ∉ ["/"%char; "."%char; "("%char; ")"%char; "*"%char].
Proof.
  apply (polishKindName_bare_type_name (go "pkg") (go "sub.(*SomeService)")).
  - discriminate.
  - discriminate.
  - refine (proj1 (bool_decide_eq_true _) _). vm_compute. reflexivity.
Defined.

Lemma member_resolution_witness :
  (∃ sm, getMessages_body byteLower someService {| Name := go "RepActionMessageQueue"; Func := 8%nat |} []
         = Some ([] ++ [sm])
         ∧ queue sm = true ∧ messageName sm = go "repaction")
  ∧ (∃ sm, getMessages_body byteLower someService {| Name := go "SubActionMessage"; Func := 9%nat |} []
           = Some ([] ++ [sm])
           ∧ queue sm = false ∧ messageName sm = go "subaction").
Proof.
  split.
  - refine (proj1 (member_resolution byteLower someService
              {| Name := go "RepActionMessageQueue"; Func := 8%nat |} [] (go "RepAction") _) _).
    + unfold someService. cbn [Methods]. repeat constructor.
    + reflexivity.
  - refine (proj2 (proj2 (member_resolution byteLower someService
              {| Name := go "SubActionMessage"; Func := 9%nat |} [] (go "SubAction") _) _)).
    + unfold someService. cbn [Methods]. repeat constructor.
    + reflexivity.
Defined.

Lemma unmatched_member_skipped_witness :
  getMessages_body byteLower someService {| Name := go "Helper"; Func := 7%nat |} [] = Some []
  ∧ getMessages_loop byteLower someService (Methods someService) []
    = getMessages_loop byteLower someService
        [ {| Name := go "RepActionMessageQueue"; Func := 8%nat |};
          {| Name := go "SubActionMessage"; Func := 9%nat |} ] [].
Proof.
  apply (unmatched_member_skipped byteLower someService {| Name := go "Helper"; Func := 7%nat |} []).
  - intros H%HasSuffix_iff. vm_compute in H. discriminate H.
  - intros H%HasSuffix_iff. vm_compute in H. discriminate H.
Defined.

Lemma SubscribeFunc_shared_queue_witness :
  ∃ order, order ≡ₚ map_to_list ({[ go "jobs.new" := 4%nat ]} : gmap gostring callable)
    ∧ (∀ q rest, [go "workers"] = q :: rest → q ≠ [] →
         calls (SubscribeFunc_in (NewSubscriber 0%nat reliable)
                  (map_to_list ({[ go "jobs.new" := 4%nat ]} : gmap gostring callable))
                  [go "workers"] init)
         = calls init ++ ((λ e, QueueSubscribeCall e.1 q e.2) <$> order))
    ∧ ([go "workers"] = [] ∨ (∃ rest, [go "workers"] = [] :: rest) →
         calls (SubscribeFunc_in (NewSubscriber 0%nat reliable)
                  (map_to_list ({[ go "jobs.new" := 4%nat ]} : gmap gostring callable))
                  [go "workers"] init)
         = calls init ++ ((λ e, SubscribeCall e.1 e.2) <$> order)).
Proof.
  apply (proj2 (SubscribeFunc_shared_queue (NewSubscriber 0%nat reliable)
                  {[ go "jobs.new" := 4%nat ]} [go "workers"] init)).
  exists (map_to_list ({[ go "jobs.new" := 4%nat ]} : gmap gostring callable)).
  split; reflexivity.
Defined.

Lemma subscribe_failure_is_local_witness :
  qsub 0%nat refusing (go "someservice_repaction") (go "someservice.repaction") 8%nat init
  = {| calls := [QueueSubscribeCall (go "someservice.repaction")
                   (go "someservice_repaction") 8%nat];
       logged := [go "nats: connection closed"];
       goroutines := []; unsubscribed := []; cancelled := [] |}.
Proof.
  apply (proj1 (proj2 (subscribe_failure_is_local byteLower (NewSubscriber 0%nat refusing)
                         someService init))).
  reflexivity.
Defined.

Lemma polishKindName_take_nonpositive_witness :
  polishKindName (go "pkg/sub.(*SomeService)") (-3) 1 = Some [].
Proof. apply polishKindName_take_nonpositive. lia. Defined.

Lemma polishKindName_keeps_all_witness :
  polishKindName (go "pkg/sub.(*SomeService)") 2 0 = Some (go "sub.SomeService").
Proof.
  apply (polishKindName_keeps_all (go "pkg/sub.(*SomeService)") 2 0).
  - vm_compute. discriminate.
  - left. lia.
Defined.

Lemma polishKindName_plain_witness :
  polishKindName (go "someService") 1 5 = Some (go "someService").
Proof.
  apply polishKindName_plain; [|lia].
  refine (proj1 (bool_decide_eq_true _) _). vm_compute. reflexivity.
Defined.

Lemma polishKindName_type_name_witness :
  polishKindName (go "*subly.someService") 1 0 = Some (go "someService").
Proof.
  apply (polishKindName_type_name (go "*subly") (go "someService")).
  refine (proj1 (bool_decide_eq_true _) _). vm_compute. reflexivity.
Defined.

Lemma getMessages_binds_methods_witness :
  ∃ messages,
    getMessages byteLower someService = Some messages
    ∧ message <$> messages = [8%nat; 9%nat].
Proof.
  apply (getMessages_binds_methods byteLower someService).
  refine (proj1 (bool_decide_eq_true _) _). vm_compute. reflexivity.
Defined.

Lemma Subscribe_nothing_kept_witness :
  Subscribe byteLower (NewSubscriber 0%nat refusing)
    {| TypeString := go "*main.Plain"; Methods := [ {| Name := go "Queue"; Func := 3%nat |} ] |}
    someRun
  = Some someRun.
Proof.
  apply (Subscribe_nothing_kept byteLower). intros m Hm. cbn [Methods] in Hm.
  apply list_elem_of_singleton in Hm as ->. reflexivity.
Defined.

Lemma twin_methods_share_subject_witness :
  ∃ sm1 sm2,
    getMessages_body byteLower twinService {| Name := go "CreateMessage"; Func := 1%nat |} []
    = Some ([] ++ [sm1])
    ∧ getMessages_body byteLower twinService {| Name := go "CreateMessageQueue"; Func := 2%nat |} []
      = Some ([] ++ [sm2])
    ∧ subjectOf sm1 = subjectOf sm2
    ∧ ∀ (s : Subscriber) (w : World),
        calls (Subscribe_range s [sm1; sm2] w)
        = calls w ++ [ SubscribeCall (subjectOf sm1) (message sm1);
                       QueueSubscribeCall (subjectOf sm1)
                         (fmt.Sprintf_s_s (go "_") (serviceName sm2) (messageName sm2))
                         (message sm2) ].
Proof.
  apply (twin_methods_share_subject byteLower twinService _ _ (go "Create")).
  - unfold twinService. cbn [Methods]. repeat constructor.
  - unfold twinService. cbn [Methods]. repeat constructor.
  - reflexivity.
  - reflexivity.
Defined.

Lemma getMessages_service_name_witness :
  ∃ messages,
    getMessages byteLower someService = Some messages
    ∧ ∀ sm, sm ∈ messages → serviceName sm = go "someservice".
Proof.
  apply (getMessages_service_name byteLower someService (go "*subly") (go "someService")).
  - reflexivity.
  - refine (proj1 (bool_decide_eq_true _) _). vm_compute. reflexivity.
Defined.

Lemma SubscribeFunc_accounting_witness :
  length (calls (SubscribeFunc_in (NewSubscriber 0%nat refusing)
            (map_to_list ({[ go "jobs.new" := 4%nat ]} : gmap gostring callable)) [] someRun))
  = (length (calls someRun) + size ({[ go "jobs.new" := 4%nat ]} : gmap gostring callable))%nat.
Proof.
  refine (proj1 (SubscribeFunc_accounting (NewSubscriber 0%nat refusing)
                   {[ go "jobs.new" := 4%nat ]} [] someRun _ _)).
  exists (map_to_list ({[ go "jobs.new" := 4%nat ]} : gmap gostring callable)).
  split; reflexivity.
Defined.

Lemma SubscribeFunc_union_witness :
  SubscribeFunc (NewSubscriber 0%nat reliable)
    ({[ go "jobs.new" := 4%nat ]} ∪ {[ go "jobs.done" := 5%nat ]}) [go "workers"] init
    (SubscribeFunc_in (NewSubscriber 0%nat reliable) [(go "jobs.done", 5%nat)] [go "workers"]
       (SubscribeFunc_in (NewSubscriber 0%nat reliable) [(go "jobs.new", 4%nat)]
          [go "workers"] init)).
Proof.
  apply (SubscribeFunc_union (NewSubscriber 0%nat reliable)
           {[ go "jobs.new" := 4%nat ]} {[ go "jobs.done" := 5%nat ]} [go "workers"] init
           (SubscribeFunc_in (NewSubscriber 0%nat reliable) [(go "jobs.new", 4%nat)]
              [go "workers"] init)).
  - apply map_disjoint_singleton_l, lookup_singleton_ne. discriminate.
  - exists [(go "jobs.new", 4%nat)]. by rewrite map_to_list_singleton.
  - exists [(go "jobs.done", 5%nat)]. by rewrite map_to_list_singleton.
Defined.

Lemma exec_append_only_witness :
  calls someRun `prefix_of` calls (wake 0 someRun)
  ∧ logged someRun `prefix_of` logged (wake 0 someRun)
  ∧ unsubscribed someRun `prefix_of` unsubscribed (wake 0 someRun)
  ∧ (λ g, (g_ctx g, gid g)) <$> goroutines someRun
    `prefix_of` (λ g, (g_ctx g, gid g)) <$> goroutines (wake 0 someRun)
  ∧ cancelled someRun ⊆ cancelled (wake 0 someRun).
Proof. apply (exec_append_only byteLower (OpWake 0) someRun). apply (exec_Wake byteLower). Defined.

Lemma reachable_bounds_witness :
  NoDup (unsubscribed (wake 1 someRun))
  ∧ (length (unsubscribed (wake 1 someRun)) <= length (goroutines (wake 1 someRun)))%nat
  ∧ (length (goroutines (wake 1 someRun)) <= length (calls (wake 1 someRun)))%nat.
Proof.
  apply (reachable_bounds byteLower).
  eapply reachable_exec; [|apply exec_Wake].
  eapply reachable_exec; [|apply exec_Cancel].
  eapply reachable_exec; [apply reachable_init|].
  apply (exec_Subscribe byteLower (NewSubscriber 0%nat reliable) someService). reflexivity.
Defined.

Lemma wakes_blocked_witness :
  wakes [0%nat; 0%nat; 1%nat]
    (cancel 7%nat (Subscribe_range (NewSubscriber 0%nat reliable)
       [ {| queue := false; serviceName := go "someservice";
            messageName := go "subaction"; message := 9%nat |} ] init))
  = cancel 7%nat (Subscribe_range (NewSubscriber 0%nat reliable)
       [ {| queue := false; serviceName := go "someservice";
            messageName := go "subaction"; message := 9%nat |} ] init).
Proof.
  apply wakes_blocked. intros g Hg _. cbn in Hg.
  apply list_elem_of_singleton in Hg as ->. cbn.
  rewrite not_elem_of_cons. split; [discriminate|apply not_elem_of_nil].
Defined.

Lemma unsubscribe_failure_logged_once_witness :
  logged (wake 0 (cancel 0%nat (sub 0%nat stuck (go "a.b") 1%nat init)))
  = logged (cancel 0%nat (sub 0%nat stuck (go "a.b") 1%nat init))
    ++ [go "nats: invalid subscription"]
  ∧ unsubscribed (wake 0 (cancel 0%nat (sub 0%nat stuck (go "a.b") 1%nat init)))
    = unsubscribed (cancel 0%nat (sub 0%nat stuck (go "a.b") 1%nat init)) ++ [0%nat]
  ∧ goroutines (wake 0 (cancel 0%nat (sub 0%nat stuck (go "a.b") 1%nat init))) !! 0%nat
    = Some {| g_ctx := 0%nat; g_sub := {| sub_id := 0; sub_conn := stuck |};
              g_state := Exited |}
  ∧ calls (wake 0 (cancel 0%nat (sub 0%nat stuck (go "a.b") 1%nat init)))
    = calls (cancel 0%nat (sub 0%nat stuck (go "a.b") 1%nat init))
  ∧ wake 0 (wake 0 (cancel 0%nat (sub 0%nat stuck (go "a.b") 1%nat init)))
    = wake 0 (cancel 0%nat (sub 0%nat stuck (go "a.b") 1%nat init)).
Proof.
  apply (unsubscribe_failure_logged_once 0
           {| g_ctx := 0%nat; g_sub := {| sub_id := 0; sub_conn := stuck |};
              g_state := Waiting |}
           (cancel 0%nat (sub 0%nat stuck (go "a.b") 1%nat init))
           (go "nats: invalid subscription")).
  - reflexivity.
  - reflexivity.
  - simpl. by left.
  - reflexivity.
Defined.
